(** * Sideboard: lifecycle registry and connection checker

    A shallow embedding of [sideboard/lib/_cp.py] (startup and shutdown
    callbacks run in priority order, [mainloop]) and of
    [sideboard/internal/connection_checker.py] ([_check]), with the
    properties of the two components. *)

From stdpp Require Import gmap strings list sorting pretty.
From Stdlib Require OrdersEx.

Open Scope Z_scope.

(** ** Python exceptions

    Only the top of the class hierarchy matters to the code: [except
    Exception] catches [Exception] and its subclasses and lets the other
    subclasses of [BaseException] through. *)

Inductive exn :=
| Exception (msg : string)
| KeyboardInterrupt
| SystemExit
| GeneratorExit.

Global Instance exn_eq_dec : EqDecision exn.
Proof. solve_decision. Defined.

Definition is_Exception (e : exn) : bool :=
  match e with Exception _ => true | _ => false end.

Definition is_KeyboardInterrupt (e : exn) : bool :=
  match e with KeyboardInterrupt => true | _ => false end.

(** [str(e)] *)
Definition str_exn (e : exn) : string :=
  match e with
  | Exception msg => msg
  | KeyboardInterrupt | SystemExit | GeneratorExit => ""
  end.

(** ** Statements that return or raise

    A statement run from a state [S] ends in a state and either returns a
    value or raises. *)

Inductive result (S A : Type) :=
| Returns (a : A) (s : S)
| Raises (e : exn) (s : S).
Arguments Returns {S A} a s.
Arguments Raises {S A} e s.

Definition M (S A : Type) : Type := S → result S A.

Definition ret {S A} (a : A) : M S A := λ s, Returns a s.

Definition bind {S A B} (c : M S A) (k : A → M S B) : M S B :=
  λ s, match c s with
       | Returns a s' => k a s'
       | Raises e s' => Raises e s'
       end.

Definition raise {S A} (e : exn) : M S A := λ s, Raises e s.

Notation "x ←ₘ c ;; k" := (bind c (λ x, k))
  (at level 100, c at next level, right associativity).
Notation "c ;;ₘ k" := (bind c (λ _, k))
  (at level 100, right associativity).

(** [try: body except C: handler], where [catches e] tells whether the
    raised exception is an instance of the class [C]. *)
Definition try_except {S A} (body : M S A) (catches : exn → bool)
    (handler : exn → M S A) : M S A :=
  λ s, match body s with
       | Returns a s' => Returns a s'
       | Raises e s' => if catches e then handler e s' else Raises e s'
       end.

(** The [finally] clause applied to the way the [try] block ended: the
    clause runs in both cases; when it raises, its exception replaces the
    pending one, otherwise the block's outcome stands. *)
Definition finally {S A} (r : result S A) (cleanup : M S unit) : result S A :=
  match r with
  | Returns a s =>
      match cleanup s with
      | Returns _ s' => Returns a s'
      | Raises e' s' => Raises e' s'
      end
  | Raises e s =>
      match cleanup s with
      | Returns _ s' => Raises e s'
      | Raises e' s' => Raises e' s'
      end
  end.

Definition try_finally {S A} (body : M S A) (cleanup : M S unit) : M S A :=
  λ s, finally (body s) cleanup.

(** The state a statement ends in. *)
Definition final {S A} (r : result S A) : S :=
  match r with Returns _ s | Raises _ s => s end.

(** [for x in xs: body(x)] *)
Fixpoint for_each {S A} (xs : list A) (body : A → M S unit) : M S unit :=
  match xs with
  | [] => ret ()
  | x :: xs' => body x ;;ₘ for_each xs' body
  end.

(** * The lifecycle registry ([sideboard/lib/_cp.py]) *)

Module Lifecycle.

(** A record passed to [log.warn]; [exc_info] is the exception being
    handled when the call asked for it. *)
Record LogRecord := {
  log_message : string;
  log_exc_info : option exn
}.

Section registry.
(** The part of the process state that is neither the [stopped] event
    nor the log. *)
Context {U : Type}.

(** What a callback can read and change. *)
Record World := {
  stopped : bool;            (* the flag of [stopped = Event()] *)
  log : list LogRecord;      (* what [log.warn] has written *)
  user : U
}.

Definition set_stopped (b : bool) (w : World) : World :=
  {| stopped := b; log := log w; user := user w |}.

Definition log_warn (msg : string) (exc : option exn) (w : World) : World :=
  {| stopped := stopped w;
     log := log w ++ [{| log_message := msg; log_exc_info := exc |}];
     user := user w |}.

(** A registered function: its [__name__] and its body, a zero-argument
    action that returns or raises. The registries are module globals
    that the bodies do not reach: the registrations are over when the
    callbacks run. *)
Record Callback := {
  cb_name : string;
  cb_body : World → result World unit
}.

(** The running process: the world, and the names of the functions the
    runner has called so far, in call order. *)
Record Process := {
  world : World;
  called : list string
}.

(** [func()] *)
Definition call (func : Callback) : M Process unit :=
  λ p, let called' := called p ++ [cb_name func] in
       match cb_body func (world p) with
       | Returns _ w => Returns () {| world := w; called := called' |}
       | Raises e w => Raises e {| world := w; called := called' |}
       end.

Definition warn (msg : string) (exc : option exn) : M Process unit :=
  λ p, Returns () {| world := log_warn msg exc (world p); called := called p |}.

(** [defaultdict(list)], keyed by priority. *)
Local Abbreviation Registry := (gmap Z (list Callback)).

(** [registry[priority].append(func)]: a missing key starts from the
    empty list. The Python function hands [func] back, for use as a
    decorator; here the result is the registry after the call. *)
Definition _on_startup (func : Callback) (priority : Z) (reg : Registry) : Registry :=
  <[priority := default [] (reg !! priority) ++ [func]]> reg.

Definition _on_shutdown (func : Callback) (priority : Z) (reg : Registry) : Registry :=
  <[priority := default [] (reg !! priority) ++ [func]]> reg.

(** [on_startup(func, priority=50)] called with a function. *)
Definition default_priority : Z := 50.

Definition on_startup (func : Callback) (priority : Z) : Registry → Registry :=
  _on_startup func priority.

Definition on_shutdown (func : Callback) (priority : Z) : Registry → Registry :=
  _on_shutdown func priority.

(** [sorted(registry.items())]: the items are compared as tuples, and
    since the keys of a dict are distinct the comparison is decided by
    the priority. *)
Definition item_le (x y : Z * list Callback) : Prop := x.1 ≤ y.1.

Global Instance item_le_dec x y : Decision (item_le x y) :=
  decide (x.1 ≤ y.1).

Global Instance item_le_trans : Transitive item_le.
Proof. intros x y z. unfold item_le. lia. Qed.

Global Instance item_le_total : Total item_le.
Proof. intros x y. unfold item_le. lia. Qed.

Definition sorted_items (reg : Registry) : list (Z * list Callback) :=
  merge_sort item_le (map_to_list reg).

Definition _run_startup (reg : Registry) : M Process unit :=
  for_each (sorted_items reg) (λ '(priority, functions),
    for_each functions (λ func, call func)).

Definition shutdown_message : string := "Ignored exception during shutdown".

Definition _run_shutdown (reg : Registry) : M Process unit :=
  for_each (sorted_items reg) (λ '(priority, functions),
    for_each functions (λ func,
      try_except (call func) is_Exception
        (λ e, warn shutdown_message (Some e)))).

(** The statement the inner loop of [_run_shutdown] runs for [func]. *)
Definition shutdown_call (func : Callback) : M Process unit :=
  try_except (call func) is_Exception (λ e, warn shutdown_message (Some e)).

(** The registry after the registrations [regs], made in that order on
    [reg] by [on] ([_on_startup] or [_on_shutdown]). *)
Definition registered (on : Callback → Z → Registry → Registry)
    (regs : list (Z * Callback)) (reg : Registry) : Registry :=
  foldl (λ r '(priority, func), on func priority r) reg regs.

(** The callbacks in the order in which the two nested loops of
    [_run_startup] and [_run_shutdown] reach them, each with the priority
    it is filed under. *)
Definition schedule (reg : Registry) : list (Z * Callback) :=
  '(priority, functions) ← sorted_items reg; (pair priority) <$> functions.

(** The functions among the registrations [regs] that were given the
    priority [priority], in registration order. *)
Definition filed_under (priority : Z) (regs : list (Z * Callback))
    : list Callback :=
  (filter (λ x, x.1 = priority) regs).*2.

(** The order of the schedule: ascending priority. *)
Definition by_priority (x y : Z * Callback) : Prop := x.1 ≤ y.1.

(** A callback that raises nothing outside [Exception]. *)
Definition raises_only_errors (func : Callback) : Prop :=
  ∀ w e w', cb_body func w = Raises e w' → is_Exception e = true.

(** A callback that leaves the [stopped] event as it found it. *)
Definition keeps_stopped (func : Callback) : Prop :=
  ∀ w, match cb_body func w with
       | Returns _ w' | Raises _ w' => stopped w' = stopped w
       end.

(** [stopped.clear] and [stopped.set] *)
Definition stopped_clear : Callback :=
  {| cb_name := "stopped.clear";
     cb_body := λ w, Returns () (set_stopped false w) |}.

Definition stopped_set : Callback :=
  {| cb_name := "stopped.set";
     cb_body := λ w, Returns () (set_stopped true w) |}.

(** The two registries when the module has been imported:
    [on_startup(stopped.clear, priority=0)] and
    [on_shutdown(stopped.set, priority=0)]. *)
Definition _startup_registry : Registry := on_startup stopped_clear 0 ∅.
Definition _shutdown_registry : Registry := on_shutdown stopped_set 0 ∅.

(** What one call of [stopped.wait(config['thread_wait_interval'])]
    meets while the flag is clear. *)
Inductive wait_event :=
| TimedOut                  (* the interval passed, the flag is still clear *)
| StopRequested             (* another thread called [stopped.set()] *)
| WaitRaised (e : exn).     (* the call raised; Ctrl-C is [KeyboardInterrupt] *)

(** The loop of [mainloop]. The list holds what the successive waits
    meet; after it nothing happens any more, every later wait times
    out, and the loop never ends: [None]. *)
Fixpoint wait_loop (evs : list wait_event) (p : Process)
    : option (result Process unit) :=
  if stopped (world p) then Some (Returns () p)
  else match evs with
       | [] => None
       | TimedOut :: evs' => wait_loop evs' p
       | StopRequested :: evs' =>
           wait_loop evs'
             {| world := set_stopped true (world p); called := called p |}
       | WaitRaised e :: evs' =>
           if is_KeyboardInterrupt e then Some (Returns () p)
           else Some (Raises e p)
       end.

Definition mainloop (startup shutdown : Registry) (evs : list wait_event)
    (p : Process) : option (result Process unit) :=
  match _run_startup startup p with
  | Raises e p1 => Some (Raises e p1)
  | Returns _ p1 =>
      r ← wait_loop evs p1;
      Some (finally r (_run_shutdown shutdown))
  end.

End registry.

Arguments World : clear implicits.
Arguments Callback : clear implicits.
Arguments Process : clear implicits.

Abbreviation Registry U := (gmap Z (list (Callback U))).

End Lifecycle.

(** * The connection checker ([sideboard/internal/connection_checker.py]) *)

Module Checker.

(** What [urlparse(url)] gives. The [port] property is computed when it
    is read: it is [None] when the URL names no port and raises on a port
    that is not a number. *)
Record ParseResult := {
  scheme : string;
  hostname : option string;
  port : exn + option Z
}.

(** The keyword arguments [check_all] passes on to [_check]; each value
    is [None] or a string. *)
Record SslParams := {
  ca_certs : option string;
  keyfile : option string;
  certfile : option string
}.

(** Truth value of [None] and of a string. *)
Definition truthy (v : option string) : bool :=
  match v with
  | None => false
  | Some s => negb (String.eqb s "")
  end.

(** [any(ssl_params.values())] *)
Definition any_values (ssl_params : SslParams) : bool :=
  truthy (ca_certs ssl_params) || truthy (keyfile ssl_params)
  || truthy (certfile ssl_params).

Definition socket : Type := nat.

Inductive cert_reqs := CERT_NONE | CERT_REQUIRED.

(** The [timeout] argument of [socket.create_connection]: left out, the
    call takes the process-wide default of [socket.getdefaulttimeout()]. *)
Inductive timeout_arg :=
| GlobalDefault
| Timeout (seconds : option Z).

(** [None] is a socket that blocks without limit. *)
Definition effective_timeout (process_default : option Z) (t : timeout_arg)
    : option Z :=
  match t with
  | GlobalDefault => process_default
  | Timeout seconds => seconds
  end.

(** The calls [_check] makes on the network, with their arguments. *)
Inductive net_call :=
| Gethostbyname (host : option string)
| CreateConnection (host : option string) (port : Z) (timeout : timeout_arg)
| WrapSocket (sock : socket) (reqs : cert_reqs) (ssl_params : SslParams)
| Close (sock : socket).

(** The outside world of one probe. Each network function answers from
    the calls made before it, so that two calls with the same arguments
    may differ; an answer is a value or a raised exception. *)
Record Net := {
  urlparse : string → exn + ParseResult;
  gethostbyname : list net_call → option string → exn + string;
  create_connection :
    list net_call → option string → Z → timeout_arg → exn + socket;
  wrap_socket :
    list net_call → socket → cert_reqs → SslParams → exn + unit
}.

(** One line of the report. [render] below gives its text. *)
Inductive status_line :=
| Checking (url : string)
| FailedParse (e : exn)
| UsingHostPort (host : option string) (port : Z)
| FailedResolve (e : exn)
| Resolved (host : option string) (ip : string)
| FailedConnect (host : option string) (port : Z) (e : exn)
| Connected (host : option string) (port : Z)
| FailedHandshake (ssl_params : SslParams) (e : exn)
| HandshakeSucceeded
| FailedValidate (ssl_params : SslParams) (e : exn)
| EverythingWorks.

(** ['{}'.format(host)] *)
Definition str_host (host : option string) : string :=
  match host with
  | None => "None"
  | Some h => h
  end.

(** The text of a line; [repr_params] is Python's rendering of the
    keyword dictionary. *)
Definition render (repr_params : SslParams → string) (l : status_line)
    : string :=
  match l with
  | Checking url => "checking " +:+ url
  | FailedParse e => "failed to parse url: " +:+ str_exn e
  | UsingHostPort host port =>
      "using hostname " +:+ str_host host +:+ " and port " +:+ pretty port
  | FailedResolve e => "failed to resolve host with DNS: " +:+ str_exn e
  | Resolved host ip =>
      "successfully resolved host " +:+ str_host host +:+ " to " +:+ ip
  | FailedConnect host port e =>
      "failed to establish a socket connection to " +:+ str_host host
      +:+ " on port " +:+ pretty port +:+ ": " +:+ str_exn e
  | Connected host port =>
      "successfully opened socket connection to " +:+ str_host host
      +:+ ":" +:+ pretty port
  | FailedHandshake ssl_params e =>
      "failed to complete SSL handshake (" +:+ repr_params ssl_params
      +:+ "): " +:+ str_exn e
  | HandshakeSucceeded =>
      "succeeded at SSL handshake (without validating server cert)"
  | FailedValidate ssl_params e =>
      "failed to validate server cert (" +:+ repr_params ssl_params
      +:+ "): " +:+ str_exn e
  | EverythingWorks => "everything seems to work"
  end.

(** The stage of [_check] that writes a line. *)
Inductive stage :=
| ParseStage | ResolveStage | ConnectStage | TlsStage | FinalStage.

Global Instance stage_eq_dec : EqDecision stage.
Proof. solve_decision. Defined.

Definition stage_of (l : status_line) : stage :=
  match l with
  | Checking _ | FailedParse _ | UsingHostPort _ _ => ParseStage
  | FailedResolve _ | Resolved _ _ => ResolveStage
  | FailedConnect _ _ _ | Connected _ _ => ConnectStage
  | FailedHandshake _ _ | HandshakeSucceeded | FailedValidate _ _ => TlsStage
  | EverythingWorks => FinalStage
  end.

(** The calls that are a TLS handshake. *)
Definition is_wrap (c : net_call) : Prop :=
  match c with WrapSocket _ _ _ => True | _ => False end.

(** [parsed.port or (443 if parsed.scheme in ['https', 'wss'] else 80)]:
    [or] takes its right operand when the left one is [None] or [0]. *)
Definition default_port (scheme : string) : Z :=
  if bool_decide (scheme ∈ ["https"; "wss"]) then 443 else 80.

Definition port_or_default (parsed_port : option Z) (scheme : string) : Z :=
  match parsed_port with
  | None => default_port scheme
  | Some n => if bool_decide (n = 0) then default_port scheme else n
  end.

(** The network calls as statements over the list of calls made so far. *)
Definition answer {A} (c : net_call) (r : exn + A) : M (list net_call) A :=
  λ calls, match r with
           | inl e => Raises e (calls ++ [c])
           | inr a => Returns a (calls ++ [c])
           end.

Definition socket_gethostbyname (net : Net) (host : option string)
    : M (list net_call) string :=
  λ calls, answer (Gethostbyname host) (gethostbyname net calls host) calls.

Definition socket_create_connection (net : Net) (host : option string)
    (port : Z) (timeout : timeout_arg) : M (list net_call) socket :=
  λ calls, answer (CreateConnection host port timeout)
             (create_connection net calls host port timeout) calls.

Definition ssl_wrap_socket (net : Net) (sock : socket) (reqs : cert_reqs)
    (ssl_params : SslParams) : M (list net_call) unit :=
  λ calls, answer (WrapSocket sock reqs ssl_params)
             (wrap_socket net calls sock reqs ssl_params) calls.

Definition sock_close (sock : socket) : M (list net_call) unit :=
  λ calls, Returns () (calls ++ [Close sock]).

(** [try: x = body except Exception as e: ...]: the value, or the caught
    exception; an exception outside [Exception] goes on. *)
Definition attempt {S A} (body : M S A) : M S (exn + A) :=
  try_except (a ←ₘ body;; ret (inr a)) is_Exception (λ e, ret (inl e)).

Definition _check (net : Net) (url : string) (ssl_params : SslParams)
    : M (list net_call) (list status_line) :=
  let status := [Checking url] in
  match urlparse net url with
  | inl e =>
      if is_Exception e then ret (status ++ [FailedParse e]) else raise e
  | inr parsed =>
      let host := hostname parsed in
      match port parsed with
      | inl e => raise e
      | inr parsed_port =>
  let port := port_or_default parsed_port (scheme parsed) in
  let status := status ++ [UsingHostPort host port] in
  r ←ₘ attempt (socket_gethostbyname net host);;
  match r with
  | inl e => ret (status ++ [FailedResolve e])
  | inr ip =>
  let status := status ++ [Resolved host ip] in
  r ←ₘ attempt (socket_create_connection net host port GlobalDefault);;
  match r with
  | inl e => ret (status ++ [FailedConnect host port e])
  | inr sock =>
  let status := status ++ [Connected host port] in
  if any_values ssl_params then
    r ←ₘ try_finally (attempt (ssl_wrap_socket net sock CERT_NONE ssl_params))
           (sock_close sock);;
    match r with
    | inl e => ret (status ++ [FailedHandshake ssl_params e])
    | inr _ =>
    let status := status ++ [HandshakeSucceeded] in
    r ←ₘ attempt
           (sock ←ₘ socket_create_connection net host port GlobalDefault;;
            try_finally (ssl_wrap_socket net sock CERT_REQUIRED ssl_params)
              (sock_close sock));;
    match r with
    | inl e => ret (status ++ [FailedValidate ssl_params e])
    | inr _ => ret (status ++ [EverythingWorks])
    end
    end
  else ret (status ++ [EverythingWorks])
  end
  end
      end
  end.

(** Unfolding [_check] down to the answers of the network. *)
Ltac unfold_check :=
  unfold _check, attempt, try_finally, finally, try_except, bind, ret, raise,
    socket_gethostbyname, socket_create_connection, ssl_wrap_socket,
    sock_close, answer.

(** Every path through [_check], one goal each. *)
Ltac check_paths :=
  unfold_check; repeat (case_match; simplify_eq/=; try done).

End Checker.

(** * Concrete callbacks, registries and networks *)

Module Examples.
Import Lifecycle Checker.

Definition w0 : World unit := {| stopped := false; log := []; user := () |}.
Definition p0 : Process unit := {| world := w0; called := [] |}.

Definition w0_warned : World unit :=
  log_warn shutdown_message (Some (Exception "boom")) w0.

(** A callback that only returns. *)
Definition quiet (name : string) : Callback unit :=
  {| cb_name := name; cb_body := λ w, Returns () w |}.

(** A callback that raises [e]. *)
Definition failing (name : string) (e : exn) : Callback unit :=
  {| cb_name := name; cb_body := λ w, Raises e w |}.

(** A startup callback that asks the process to stop. *)
Definition request_stop : Callback unit :=
  {| cb_name := "request_stop";
     cb_body := λ w, Returns () (set_stopped true w) |}.

(** A shutdown callback that clears the event again. *)
Definition reset_event : Callback unit :=
  {| cb_name := "reset_event";
     cb_body := λ w, Returns () (set_stopped false w) |}.

Definition names (r : result (Process unit) unit) : list string :=
  called (final r).

(** Priorities 30, 10, 20 in registration order. *)
Definition three_priorities : Registry unit :=
  registered _on_startup
    [(30, quiet "c30"); (10, quiet "c10"); (20, quiet "c20")] ∅.

(** [A] then [B], both with priority 10. *)
Definition same_priority : Registry unit :=
  registered _on_startup [(10, quiet "A"); (10, quiet "B")] ∅.

Definition boom : exn := Exception "boom".

(** Three shutdown callbacks, the second of which fails. *)
Definition three_shutdown : Registry unit :=
  registered _on_shutdown
    [(10, quiet "first"); (20, failing "second" boom); (30, quiet "third")] ∅.

(** Two startup callbacks, the first of which fails. *)
Definition two_startup : Registry unit :=
  registered _on_startup
    [(10, failing "first" boom); (20, quiet "second")] ∅.

(** Three shutdown callbacks, the second of which is interrupted. *)
Definition interrupted_shutdown : Registry unit :=
  registered _on_shutdown
    [(10, quiet "first"); (20, failing "second" KeyboardInterrupt);
     (30, quiet "third")] ∅.

(** The registries of the module after one more registration each. *)
Definition startup_with_stop : Registry unit :=
  registered _on_startup [(50, request_stop)] _startup_registry.

Definition shutdown_with_reset : Registry unit :=
  registered _on_shutdown [(50, reset_event)] _shutdown_registry.

Definition startup_with_quiet : Registry unit :=
  registered _on_startup [(50, quiet "plugin_start")] _startup_registry.

Definition shutdown_with_quiet : Registry unit :=
  registered _on_shutdown [(50, quiet "plugin_stop")] _shutdown_registry.

(** The process when [startup_with_quiet] has run from [p0]. *)
Definition after_startup : Process unit :=
  {| world := w0; called := ["stopped.clear"; "plugin_start"] |}.

(** [urlparse] of [http://example.com:0/], of [https://example.com/]
    and of [http://example.com:8080/]. *)
Definition zero_port_url : ParseResult :=
  {| scheme := "http"; hostname := Some "example.com"; port := inr (Some 0) |}.

Definition https_url : ParseResult :=
  {| scheme := "https"; hostname := Some "example.com"; port := inr None |}.

Definition port_8080_url : ParseResult :=
  {| scheme := "http"; hostname := Some "example.com";
     port := inr (Some 8080) |}.

(** A network on which every call succeeds; a new socket is numbered by
    the calls made before it. *)
Definition net_up (parsed : ParseResult) : Net :=
  {| urlparse := λ _, inr parsed;
     gethostbyname := λ _ _, inr "93.184.216.34";
     create_connection := λ calls _ _ _, inr (length calls);
     wrap_socket := λ _ _ _ _, inr () |}.

Definition name_not_known : exn :=
  Exception "[Errno -2] Name or service not known".

(** The same network without name resolution. *)
Definition net_no_dns (parsed : ParseResult) : Net :=
  {| urlparse := λ _, inr parsed;
     gethostbyname := λ _ _, inl name_not_known;
     create_connection := λ calls _ _ _, inr (length calls);
     wrap_socket := λ _ _ _ _, inr () |}.

Definition no_credentials : SslParams :=
  {| ca_certs := None; keyfile := None; certfile := Some "" |}.

Definition ca_only : SslParams :=
  {| ca_certs := Some "/etc/ssl/ca.pem"; keyfile := None; certfile := None |}.

End Examples.

(** * The report over all services ([check_all], [check_connections]) *)

Module Report.
Import Stdlib.Strings.Ascii.
Import Checker.

(** The lines with which [_check] gives up. *)
Definition is_failure (l : status_line) : bool :=
  match l with
  | FailedParse _ | FailedResolve _ | FailedConnect _ _ _
  | FailedHandshake _ _ | FailedValidate _ _ => true
  | _ => false
  end.


(** What [check_all] reads of a [ServerProxy]. *)
Record ServerProxy := {
  proxy_type : string;
  proxy_host : string;
  proxy_ca_certs : option string;
  proxy_key_file : option string;
  proxy_cert_file : option string
}.

(** ['{}://{}/'.format(jproxy.type, jproxy.host)] *)
Definition service_url (jproxy : ServerProxy) : string :=
  proxy_type jproxy +:+ "://" +:+ proxy_host jproxy +:+ "/".

(** The keyword arguments [check_all] gives to [_check]. *)
Definition service_params (jproxy : ServerProxy) : SslParams :=
  {| ca_certs := proxy_ca_certs jproxy;
     keyfile := proxy_key_file jproxy;
     certfile := proxy_cert_file jproxy |}.

(** The loop of [check_all] over the items of [services._jsonrpc], with
    the dictionary [checks] built so far. *)
Fixpoint check_items (net : Net) (items : list (string * ServerProxy))
    (checks : gmap string (list status_line))
    : M (list net_call) (gmap string (list status_line)) :=
  match items with
  | [] => ret checks
  | (name, jproxy) :: items' =>
      let url := service_url jproxy in
      r ←ₘ _check net url (service_params jproxy);;
      check_items net items' (<[name := r]> checks)
  end.

Definition check_all (net : Net) (services : gmap string ServerProxy)
    : M (list net_call) (gmap string (list status_line)) :=
  check_items net (map_to_list services) ∅.

(** The report [_check] gives for a service when it is probed first. *)
Definition report_of (net : Net) (jproxy : ServerProxy) : list status_line :=
  match _check net (service_url jproxy) (service_params jproxy) [] with
  | Returns status _ => status
  | Raises _ _ => []
  end.

(** A network whose answers do not depend on the calls made before. *)
Definition memoryless (net : Net) : Prop :=
  (∀ calls calls' host,
     gethostbyname net calls host = gethostbyname net calls' host)
  ∧ (∀ calls calls' host port timeout,
       create_connection net calls host port timeout
       = create_connection net calls' host port timeout)
  ∧ (∀ calls calls' sock reqs ssl_params,
       wrap_socket net calls sock reqs ssl_params
       = wrap_socket net calls' sock reqs ssl_params).

(** What a statement gives, without the state it ends in. *)
Definition outcome {S A} (r : result S A) : exn + A :=
  match r with
  | Returns a _ => inr a
  | Raises e _ => inl e
  end.

(** The line feed. *)
Definition nl : string := String (Ascii.ascii_of_nat 10) EmptyString.

(** ['-' * n] *)
Fixpoint dashes (n : nat) : string :=
  match n with
  | O => EmptyString
  | S n' => String "-"%char (dashes n')
  end.

(** The order of [sorted] on the items of [check_all()]: the names are
    distinct, so that the comparison of two items is the one of their
    names. *)
Definition name_le (x y : string * list status_line) : Prop :=
  String.leb x.1 y.1 = true.

Global Instance name_le_dec x y : Decision (name_le x y) :=
  decide (String.leb x.1 y.1 = true).

(** What [check_connections] prints for one service: three calls of
    [print]. The length of the name is the number of its bytes, which is
    [len(service)] for a byte string and for a name in ASCII. *)
Definition print_service (repr_params : SslParams → string)
    (service : string) (results : list status_line) : list string :=
  [service;
   dashes (String.length service);
   String.concat nl (render repr_params <$> results) +:+ nl].

(** [check_connections]: the texts handed to [print], in order. *)
Definition check_connections (repr_params : SslParams → string) (net : Net)
    (services : gmap string ServerProxy) : M (list net_call) (list string) :=
  checks ←ₘ check_all net services;;
  ret ('(service, results) ← merge_sort name_le (map_to_list checks);
       print_service repr_params service results).

End Report.

(** * Concrete services *)

Module ReportExamples.
Import Checker Report Examples.

(** A network without memory that knows two URLs; every call succeeds
    on it, except that the name [db.invalid] does not resolve. *)
Definition net_static : Net :=
  {| urlparse := λ url,
       inr {| scheme := "https";
              hostname :=
                if String.eqb url "https://db.invalid/"
                then Some "db.invalid" else Some "api.example.com";
              port := inr None |};
     gethostbyname := λ _ host,
       match host with
       | Some "db.invalid" => inl name_not_known
       | _ => inr "10.0.0.1"
       end;
     create_connection := λ _ _ _ _, inr 3%nat;
     wrap_socket := λ _ _ _ _, inr () |}.

Definition api_proxy : ServerProxy :=
  {| proxy_type := "https"; proxy_host := "api.example.com";
     proxy_ca_certs := None; proxy_key_file := None;
     proxy_cert_file := None |}.

Definition db_proxy : ServerProxy :=
  {| proxy_type := "https"; proxy_host := "db.invalid";
     proxy_ca_certs := Some "/etc/ssl/ca.pem"; proxy_key_file := None;
     proxy_cert_file := None |}.

Definition two_services : gmap string ServerProxy :=
  {[ "db" := db_proxy; "api" := api_proxy ]}.

(** [urlparse] of [http://example.com:http/]: reading the port raises. *)
Definition bad_port : exn :=
  Exception "invalid literal for int() with base 10: 'http'".

Definition bad_port_url : ParseResult :=
  {| scheme := "http"; hostname := Some "example.com"; port := inl bad_port |}.

End ReportExamples.

(** * Strings and lists of Python *)

Module Py.
Import Stdlib.Strings.Ascii.

(** [c in s], for a character [c] *)
Fixpoint contains (c : ascii) (s : string) : bool :=
  match s with
  | EmptyString => false
  | String d s' => Ascii.eqb d c || contains c s'
  end.

(** [s.rsplit(sep, 1)]: the string cut once, at its last [sep]; the
    string alone when it has no [sep]. *)
Fixpoint rsplit1 (sep : ascii) (s : string) : list string :=
  match s with
  | EmptyString => [EmptyString]
  | String d s' =>
      match rsplit1 sep s' with
      | [a; b] => [String d a; b]
      | _ => if Ascii.eqb d sep then [EmptyString; s'] else [s]
      end
  end.

(** [s.startswith(c)], for a character [c] *)
Definition startswith (c : ascii) (s : string) : bool :=
  match s with
  | EmptyString => false
  | String d _ => Ascii.eqb d c
  end.

(** [s.endswith(c)], for a character [c] *)
Fixpoint endswith (c : ascii) (s : string) : bool :=
  match s with
  | EmptyString => false
  | String d EmptyString => Ascii.eqb d c
  | String _ s' => endswith c s'
  end.

(** [s.replace(old, new)], for characters [old] and [new] *)
Fixpoint replace (old new : ascii) (s : string) : string :=
  match s with
  | EmptyString => EmptyString
  | String d s' =>
      String (if Ascii.eqb d old then new else d) (replace old new s')
  end.

(** [l.index(x)], [None] for the [ValueError] of a missing [x] *)
Fixpoint index (x : string) (l : list string) : option nat :=
  match l with
  | [] => None
  | y :: l' => if String.eqb y x then Some O else S <$> index x l'
  end.

(** [sorted]: a stable sort. [le x y] tells that [x] may stand before
    [y]; of two elements that may stand either way the one that comes
    first in the input comes first in the result. With [key=k] the
    order is [k x <= k y], and with [reverse=True] it is [k y <= k x]. *)
Fixpoint insert_sorted {A} (le : A → A → bool) (x : A) (l : list A) : list A :=
  match l with
  | [] => [x]
  | y :: l' => if le x y then x :: l else y :: insert_sorted le x l'
  end.

Definition sorted {A} (le : A → A → bool) (l : list A) : list A :=
  foldr (insert_sorted le) [] l.

(** [os.path.basename] and [os.path.join] of two parts, on POSIX *)
Definition basename (p : string) : string :=
  match rsplit1 "/" p with
  | [_; b] => b
  | _ => p
  end.

Definition join (a b : string) : string :=
  if startswith "/" b then b
  else if String.eqb a "" || endswith "/" a then a +:+ b
  else a +:+ "/" +:+ b.

End Py.

(** * The templates ([_guess_autoescape] of [sideboard/lib/_cp.py]) *)

Module Templates.
Import Stdlib.Strings.Ascii.
Import Py.

Definition IndexError : exn := Exception "list index out of range".

(** [_guess_autoescape(template_name)]; [rsplit(...)[1]] raises when the
    list has one element. *)
Definition _guess_autoescape (template_name : option string) : exn + bool :=
  match template_name with
  | None => inr false
  | Some name =>
      if negb (contains "." name) then inr false
      else match rsplit1 "." name !! 1%nat with
           | None => inl IndexError
           | Some ext => inr (bool_decide (ext ∈ ["html"; "htm"; "xml"]))
           end
  end.

End Templates.

(** * The discovery of the plugins ([sideboard/internal/imports.py]) *)

Module Plugins.
Import Stdlib.Strings.Ascii.
Import Py.

(** The two settings [_discover_plugins] reads. *)
Record Config := {
  priority_plugins : list string;
  plugins_dir : string
}.

(** The file system: what [glob] finds and what [isdir] tells. *)
Record FileSystem := {
  glob : string → list string;
  isdir : string → bool
}.

Section discovery.
(** The module objects. *)
Context {Mod : Type}.

(** The interpreter: [sys.path], the dictionary [plugins] of the module
    and what has been printed. *)
Record Interp := {
  sys_path : list string;
  plugins : gmap string Mod;
  printed : list string
}.

Definition print (text : string) : M Interp unit :=
  λ st, Returns () {| sys_path := sys_path st; plugins := plugins st;
                      printed := printed st ++ [text] |}.

Definition sys_path_append (p : string) : M Interp unit :=
  λ st, Returns () {| sys_path := sys_path st ++ [p]; plugins := plugins st;
                      printed := printed st |}.

Definition plugins_set (name : string) (m : Mod) : M Interp unit :=
  λ st, Returns () {| sys_path := sys_path st;
                      plugins := <[name := m]> (plugins st);
                      printed := printed st |}.

(** [importlib.import_module(name)], which finds the module along
    [sys.path] or raises. *)
Definition import_module (importer : list string → string → exn + Mod)
    (name : string) : M Interp Mod :=
  λ st, match importer (sys_path st) name with
        | inl e => Raises e st
        | inr m => Returns m st
        end.

(** The key of the second sort:
    [ordered.index(basename(d)) if basename(d) in ordered else -1]. *)
Definition priority_key (ordered : list string) (d : string) : Z :=
  match index (basename d) ordered with
  | Some i => Z.of_nat i
  | None => -1
  end.

(** The directories [glob] finds whose name does not begin with an
    underscore. *)
Definition eligible (fs : FileSystem) (d : string) : Prop :=
  isdir fs d = true ∧ startswith "_" (basename d) = false.

Global Instance eligible_dec fs d : Decision (eligible fs d) :=
  decide (isdir fs d = true ∧ startswith "_" (basename d) = false).

(** [plugin_dirs], after the sort by name. *)
Definition plugin_dirs (config : Config) (fs : FileSystem) : list string :=
  sorted (λ a b, String.leb (basename a) (basename b))
    (filter (eligible fs) (glob fs (join (plugins_dir config) "*"))).

(** [sorted_plugin_ordering] *)
Definition sorted_plugin_ordering (config : Config) (fs : FileSystem)
    : list string :=
  let ordered := reverse (priority_plugins config) in
  sorted (λ a b, Z.leb (priority_key ordered b) (priority_key ordered a))
    (plugin_dirs config fs).

(** The name a plugin is imported and filed under. *)
Definition plugin_name (plugin_path : string) : string :=
  replace "-" "_" (basename plugin_path).

(** [_discover_plugins]; [str_list] is [str] on a list of strings. *)
Definition _discover_plugins (str_list : list string → string)
    (config : Config) (fs : FileSystem)
    (importer : list string → string → exn + Mod) : M Interp unit :=
  let ordered := reverse (priority_plugins config) in
  print ("priority_plugins: " +:+ str_list ordered);;ₘ
  print ("plugin_dirs: " +:+ str_list (plugin_dirs config fs));;ₘ
  let sorted_plugin_names := basename <$> sorted_plugin_ordering config fs in
  print ("would load plugins in the following order:"
         +:+ str_list sorted_plugin_names);;ₘ
  for_each (sorted_plugin_ordering config fs) (λ plugin_path,
    sys_path_append plugin_path;;ₘ
    print ("LOADING PLUGIN: " +:+ plugin_name plugin_path);;ₘ
    m ←ₘ import_module importer (plugin_name plugin_path);;
    plugins_set (plugin_name plugin_path) m).

End discovery.

Arguments Interp : clear implicits.

End Plugins.

(** * A concrete plugins directory *)

Module PluginExamples.
Import Py Plugins.

Definition example_config : Config :=
  {| priority_plugins := ["uber"; "base"]; plugins_dir := "/plugins" |}.

(** Four plugins, a directory set aside with an underscore and a file. *)
Definition example_fs : FileSystem :=
  {| glob := λ pattern,
       if String.eqb pattern "/plugins/*"
       then ["/plugins/zeta-tools"; "/plugins/base"; "/plugins/_disabled";
             "/plugins/alpha"; "/plugins/uber"; "/plugins/README"]
       else [];
     isdir := λ d, negb (String.eqb d "/plugins/README") |}.

Definition example_ordering : list string :=
  ["/plugins/uber"; "/plugins/base"; "/plugins/alpha"; "/plugins/zeta-tools"].

(** An importer that finds every module, and one for which the module
    [base] is broken; a module object is shown by its name. *)
Definition importer_ok (path : list string) (name : string) : exn + string :=
  inr name.

Definition no_module : exn := Exception "No module named base".

Definition importer_broken (path : list string) (name : string)
    : exn + string :=
  if String.eqb name "base" then inl no_module else inr name.

Definition st0 : Interp string :=
  {| sys_path := ["/usr/lib/python2.7"]; plugins := ∅; printed := [] |}.

End PluginExamples.

(** * Properties of the lifecycle registry *)

Module LifecycleFacts.
Import Lifecycle.

Section facts.
Context {U : Type}.
Implicit Types (reg : Registry U) (regs : list (Z * Callback U)).
Implicit Types (func : Callback U) (p : Process U).

(** ** The loops *)

Lemma for_each_app {S A} (xs ys : list A) (body : A → M S unit) s :
  for_each (xs ++ ys) body s = (for_each xs body ;;ₘ for_each ys body) s.
Proof.
  revert s. induction xs as [|x xs IH]; intros s; simpl.
  - reflexivity.
  - unfold bind in *. destruct (body x s) as [[] s'|e s']; [|reflexivity].
    apply IH.
Qed.

Lemma for_each_nested {S A K} (l : list (K * list A)) (body : A → M S unit) s :
  for_each l (λ '(_, xs), for_each xs body) s
  = for_each (l ≫= λ '(k, xs), (pair k) <$> xs).*2 body s.
Proof.
  revert s. induction l as [|[k xs] l IH]; intros s; simpl.
  - reflexivity.
  - rewrite fmap_app, for_each_app. unfold bind.
    replace ((pair k <$> xs).*2) with xs
      by (induction xs; csimpl; congruence).
    destruct (for_each xs body s) as [[] s'|e s']; [apply IH|reflexivity].
Qed.

Lemma run_startup_schedule reg p :
  _run_startup reg p = for_each (schedule reg).*2 call p.
Proof. unfold _run_startup, schedule. apply for_each_nested. Qed.

Lemma run_shutdown_schedule reg p :
  _run_shutdown reg p = for_each (schedule reg).*2 shutdown_call p.
Proof. unfold _run_shutdown, schedule. apply (for_each_nested _ shutdown_call). Qed.

(** ** The registry after a sequence of registrations *)

Lemma on_shutdown_on_startup :
  @_on_shutdown U = @_on_startup U.
Proof. reflexivity. Qed.

Lemma registered_lookup regs reg priority :
  default [] (registered _on_startup regs reg !! priority)
  = default [] (reg !! priority) ++ filed_under priority regs.
Proof.
  revert reg. induction regs as [|[q f] regs IH]; intros reg; simpl.
  - unfold filed_under. simpl. by rewrite app_nil_r.
  - rewrite IH. unfold _on_startup, filed_under.
    rewrite filter_cons. simpl. destruct (decide (q = priority)) as [->|Hne].
    + rewrite lookup_insert_eq. simpl. by rewrite <-app_assoc.
    + by rewrite lookup_insert_ne.
Qed.

Lemma filter_priority_fmap priority regs :
  filter (λ x, x.1 = priority) regs = (pair priority) <$> filed_under priority regs.
Proof.
  unfold filed_under. induction regs as [|[q f] regs IH]; [done|].
  rewrite filter_cons. simpl. destruct (decide (q = priority)) as [->|Hne].
  - csimpl. by rewrite <-IH.
  - done.
Qed.

(** ** The sorted items *)

Lemma sorted_items_elem reg priority functions :
  (priority, functions) ∈ sorted_items reg ↔ reg !! priority = Some functions.
Proof.
  unfold sorted_items. rewrite merge_sort_Permutation.
  apply (elem_of_map_to_list reg priority functions).
Qed.

Lemma sorted_items_NoDup reg : NoDup (sorted_items reg).*1.
Proof.
  unfold sorted_items. rewrite merge_sort_Permutation.
  apply NoDup_fst_map_to_list.
Qed.

Lemma sorted_items_sorted reg : StronglySorted item_le (sorted_items reg).
Proof. apply StronglySorted_merge_sort; apply _. Qed.

End facts.

(** ** The schedule *)

Section schedule_facts.
Context {U : Type}.
Implicit Types (reg : Registry U) (regs : list (Z * Callback U)).

Lemma expand_filter_fresh (l : list (Z * list (Callback U))) priority :
  priority ∉ l.*1 →
  filter (λ x : Z * Callback U, x.1 = priority)
    (l ≫= λ '(k, fs), (pair k) <$> fs) = [].
Proof.
  induction l as [|[k fs] l IH]; [done|]. csimpl.
  rewrite not_elem_of_cons. intros [Hk Hl].
  rewrite filter_app, IH, app_nil_r by done.
  induction fs as [|f fs IHfs]; [done|]. csimpl.
  rewrite filter_cons. simpl. by destruct (decide (k = priority)).
Qed.

Lemma expand_filter_found (l : list (Z * list (Callback U))) priority fs :
  NoDup l.*1 → (priority, fs) ∈ l →
  filter (λ x : Z * Callback U, x.1 = priority)
    (l ≫= λ '(k, fs), (pair k) <$> fs) = (pair priority) <$> fs.
Proof.
  induction l as [|[k gs] l IH]; [by rewrite elem_of_nil|]. csimpl.
  rewrite NoDup_cons, elem_of_cons, filter_app. intros [Hk Hnd] [Heq|Hin].
  - injection Heq as <- <-. rewrite expand_filter_fresh, app_nil_r by done.
    clear. induction fs as [|f fs IHfs]; [done|]. csimpl.
    rewrite filter_cons. simpl. rewrite decide_True by done. by rewrite IHfs.
  - rewrite IH by done.
    assert (k ≠ priority) as Hne.
    { intros ->. apply Hk. apply list_elem_of_fmap. by exists (priority, fs). }
    replace (filter _ (pair k <$> gs)) with (@nil (Z * Callback U)); [done|].
    clear -Hne. induction gs as [|g gs IHgs]; [done|]. csimpl.
    rewrite filter_cons. simpl. by rewrite decide_False.
Qed.

Lemma schedule_filter reg priority :
  filter (λ x, x.1 = priority) (schedule reg)
  = (pair priority) <$> default [] (reg !! priority).
Proof.
  unfold schedule. destruct (reg !! priority) as [fs|] eqn:Hlook; simpl.
  - apply expand_filter_found; [apply sorted_items_NoDup|].
    by apply sorted_items_elem.
  - apply expand_filter_fresh. rewrite list_elem_of_fmap.
    intros [[k fs] [-> Hin]]. apply sorted_items_elem in Hin. simpl in *.
    congruence.
Qed.

Lemma schedule_sorted reg : StronglySorted by_priority (schedule reg).
Proof.
  unfold schedule. generalize (sorted_items_sorted reg).
  induction 1 as [|[k fs] l Hl IH Hall]; csimpl; [constructor|].
  apply StronglySorted_app_2; [| |done].
  - intros x y. rewrite list_elem_of_fmap, list_elem_of_bind.
    intros [f [-> _]] [[k' fs'] [Hy Hin]]. apply list_elem_of_fmap in Hy as [g [-> _]].
    rewrite Forall_forall in Hall. apply (Hall _ Hin).
  - clear. induction fs as [|f fs IHfs]; csimpl; constructor; [done|].
    apply Forall_forall. intros x. rewrite list_elem_of_fmap.
    intros [g [-> _]]. unfold by_priority. simpl. lia.
Qed.

(** The schedule of a registry built from nothing by the registrations
    [regs] keeps, under each priority, exactly the registrations made with
    it, in their order. *)
Lemma schedule_registered regs priority :
  filter (λ x, x.1 = priority) (schedule (registered _on_startup regs ∅))
  = filter (λ x, x.1 = priority) regs.
Proof.
  rewrite schedule_filter, registered_lookup, filter_priority_fmap.
  by rewrite lookup_empty.
Qed.

End schedule_facts.

(** ** Running the callbacks *)

Section run_facts.
Context {U : Type}.
Implicit Types (reg : Registry U) (regs : list (Z * Callback U)).
Implicit Types (func : Callback U) (p : Process U).

Lemma call_called func p : called (final (call func p)) = called p ++ [cb_name func].
Proof. unfold call. by destruct (cb_body func (world p)). Qed.

Lemma shutdown_call_called func p :
  called (final (shutdown_call func p)) = called p ++ [cb_name func].
Proof.
  unfold shutdown_call, try_except, call.
  destruct (cb_body func (world p)) as [[] w|e w]; [done|].
  by destruct (is_Exception e).
Qed.

Lemma shutdown_call_returns func p :
  raises_only_errors func → ∃ p', shutdown_call func p = Returns () p'.
Proof.
  intros Hf. unfold shutdown_call, try_except, call.
  destruct (cb_body func (world p)) as [[] w|e w] eqn:Hbody; [by eexists|].
  rewrite (Hf _ _ _ Hbody). by eexists.
Qed.

(** A shutdown sequence whose callbacks raise nothing outside
    [Exception] calls each of them and returns. *)
Lemma shutdown_sequence_completes (fs : list (Callback U)) p :
  Forall raises_only_errors fs →
  ∃ p', for_each fs shutdown_call p = Returns () p'
        ∧ called p' = called p ++ (cb_name <$> fs).
Proof.
  intros Hfs. revert p. induction Hfs as [|f fs Hf _ IH]; intros p; simpl.
  - exists p. by rewrite app_nil_r.
  - destruct (shutdown_call_returns f p Hf) as [p1 Hp1].
    destruct (IH p1) as [p' [Hrun Hcalled]]. exists p'. unfold bind.
    rewrite Hp1. split; [done|]. rewrite Hcalled.
    pose proof (shutdown_call_called f p) as Hc. rewrite Hp1 in Hc. simpl in Hc.
    by rewrite Hc, <-app_assoc.
Qed.

Lemma shutdown_run_completes reg p :
  (∀ x, x ∈ schedule reg → raises_only_errors x.2) →
  ∃ p', _run_shutdown reg p = Returns () p'
        ∧ called p' = called p ++ (cb_name <$> (schedule reg).*2).
Proof.
  intros Herr. rewrite run_shutdown_schedule.
  apply shutdown_sequence_completes.
  apply Forall_forall. intros f. rewrite list_elem_of_fmap.
  intros [x [-> Hx]]. by apply Herr.
Qed.

(** A loop stops at the first statement that raises. *)
Lemma for_each_raises {S A} (pre post : list A) (x : A) (body : A → M S unit)
    s s1 e s2 :
  for_each pre body s = Returns () s1 →
  body x s1 = Raises e s2 →
  for_each (pre ++ x :: post) body s = Raises e s2.
Proof.
  intros Hpre Hx. rewrite for_each_app. unfold bind. rewrite Hpre. simpl.
  unfold bind. by rewrite Hx.
Qed.

End run_facts.

(** ** Execution order *)

Section order.
Import Examples.

(** C1. Callbacks run in ascending order of priority, and callbacks that
    share a priority run in the order of their registration: the schedule
    of a registry is sorted by priority and keeps, under every priority,
    exactly the registrations made with it in their order; [_run_startup]
    and [_run_shutdown] call the functions in the order of the schedule.
    Registered with priorities 30, 10, 20, three callbacks run as 10, 20,
    30; registered [A] then [B] with priority 10, [A] runs before [B]. *)
Theorem priority_order :
  (∀ (U : Type) (regs : list (Z * Callback U)),
     let startup := registered _on_startup regs ∅ in
     let shutdown := registered _on_shutdown regs ∅ in
     StronglySorted by_priority (schedule startup)
     ∧ (∀ priority,
          filter (λ x, x.1 = priority) (schedule startup)
          = filter (λ x, x.1 = priority) regs)
     ∧ (∀ p, _run_startup startup p = for_each (schedule startup).*2 call p)
     ∧ schedule shutdown = schedule startup
     ∧ (∀ p, _run_shutdown shutdown p
             = for_each (schedule shutdown).*2 shutdown_call p))
  ∧ names (_run_startup three_priorities p0) = ["c10"; "c20"; "c30"]
  ∧ names (_run_startup same_priority p0) = ["A"; "B"].
Proof.
  split; [|split; vm_compute; reflexivity].
  intros U regs startup shutdown. repeat split.
  - apply schedule_sorted.
  - intros priority. apply schedule_registered.
  - intros p. apply run_startup_schedule.
  - intros p. apply run_shutdown_schedule.
Qed.

End order.

(** ** Failures *)

Section failures.
Context {U : Type}.
Implicit Types (reg : Registry U) (p : Process U) (w : World U).

(** C2. [_run_shutdown] calls every registered callback even when some
    raise an error: it returns, having called the whole schedule. With
    three callbacks of which the second raises, the first and the third
    are called, the third from a world in which the warning has been
    logged, and nothing is raised to the caller. *)
Theorem shutdown_isolates_errors reg p :
  (∀ x, x ∈ schedule reg → raises_only_errors x.2) →
  (∃ p', _run_shutdown reg p = Returns () p'
         ∧ called p' = called p ++ (cb_name <$> (schedule reg).*2))
  ∧ (∀ a b c w1 e w2 w3,
       (schedule reg).*2 = [a; b; c] →
       cb_body a (world p) = Returns () w1 →
       cb_body b w1 = Raises e w2 →
       cb_body c (log_warn shutdown_message (Some e) w2) = Returns () w3 →
       _run_shutdown reg p
       = Returns () {| world := w3;
                       called := called p ++ [cb_name a; cb_name b; cb_name c] |}).
Proof.
  intros Herr. split.
  - by apply shutdown_run_completes.
  - intros a b c w1 e w2 w3 Hsched Ha Hb Hc.
    assert (is_Exception e = true) as He.
    { apply (Herr (default 0 ((schedule reg).*1 !! 1%nat), b)) in Hb; [done|].
      assert ((schedule reg).*2 !! 1%nat = Some b) as Hlook by by rewrite Hsched.
      rewrite list_lookup_fmap in Hlook. rewrite list_lookup_fmap.
      destruct (schedule reg !! 1%nat) as [[k f]|] eqn:Hk; [|done].
      simpl in *. injection Hlook as ->. by eapply list_elem_of_lookup_2. }
    rewrite run_shutdown_schedule, Hsched. simpl.
    unfold bind, shutdown_call, try_except, call, warn, ret. simpl.
    rewrite Ha. simpl. rewrite Hb, He. simpl. rewrite Hc.
    by rewrite <-!app_assoc.
Qed.

(** C3. [_run_startup] stops at the first callback that raises: the
    exception reaches the caller and no later callback is called. With
    two callbacks of which the first raises, the second is not called. *)
Theorem startup_aborts_on_failure reg p p1 pre f post e w :
  (schedule reg).*2 = pre ++ f :: post →
  for_each pre call p = Returns () p1 →
  cb_body f (world p1) = Raises e w →
  _run_startup reg p
  = Raises e {| world := w; called := called p1 ++ [cb_name f] |}.
Proof.
  intros Hsched Hpre Hf. rewrite run_startup_schedule, Hsched.
  apply for_each_raises with p1; [done|]. unfold call. by rewrite Hf.
Qed.

(** C9. The isolation of [_run_shutdown] covers [Exception] only. When a
    callback raises, an instance of [Exception] is logged and the
    remaining callbacks run; any other exception leaves [_run_shutdown]
    at once, and the remaining callbacks are not called. *)
Theorem shutdown_lets_base_exceptions_through reg p p1 pre f post e w :
  (schedule reg).*2 = pre ++ f :: post →
  for_each pre shutdown_call p = Returns () p1 →
  cb_body f (world p1) = Raises e w →
  _run_shutdown reg p
  = if is_Exception e
    then for_each post shutdown_call
           {| world := log_warn shutdown_message (Some e) w;
              called := called p1 ++ [cb_name f] |}
    else Raises e {| world := w; called := called p1 ++ [cb_name f] |}.
Proof.
  intros Hsched Hpre Hf. rewrite run_shutdown_schedule, Hsched.
  rewrite for_each_app. unfold bind at 1. rewrite Hpre. simpl.
  unfold bind, shutdown_call at 1, try_except, call, warn. rewrite Hf.
  by destruct (is_Exception e).
Qed.

End failures.

(** ** The built-in entries *)

Section builtin.
Context {U : Type}.
Implicit Types (reg : Registry U) (regs : list (Z * Callback U)).
Implicit Types (p : Process U) (l : list (Z * Callback U)).

Lemma filter_none {A} (P : A → Prop) `{∀ x, Decision (P x)} (xs : list A) :
  Forall (λ x, ¬ P x) xs → filter P xs = [].
Proof.
  induction 1 as [|x xs Hx _ IH]; [done|].
  by rewrite filter_cons, decide_False.
Qed.

(** A list sorted by priority is its entries below [k], then those at
    [k], then those above [k]. *)
Lemma sorted_split l k :
  StronglySorted by_priority l →
  l = filter (λ x, x.1 < k) l ++ filter (λ x, x.1 = k) l
      ++ filter (λ x, k < x.1) l.
Proof.
  induction 1 as [|x l Hl IH Hall]; [done|].
  rewrite !filter_cons. unfold by_priority in Hall.
  destruct (decide (x.1 < k)) as [Hlt|Hge].
  - rewrite decide_False, decide_False by lia. simpl. by rewrite <-IH.
  - assert (filter (λ y, y.1 < k) l = []) as Hlow.
    { apply filter_none. eapply Forall_impl; [exact Hall|]. simpl. lia. }
    rewrite Hlow in *. simpl in *. destruct (decide (x.1 = k)) as [Heq|Hne].
    + rewrite decide_False by lia. simpl. by rewrite <-IH.
    + assert (filter (λ y, y.1 = k) l = []) as Hmid.
      { apply filter_none. eapply Forall_impl; [exact Hall|]. simpl. lia. }
      rewrite Hmid in *. simpl in *. rewrite decide_True by lia.
      by rewrite <-IH.
Qed.

Lemma schedule_registered_from regs reg priority :
  filter (λ x, x.1 = priority) (schedule (registered _on_startup regs reg))
  = (pair priority) <$> (default [] (reg !! priority) ++ filed_under priority regs).
Proof. by rewrite schedule_filter, registered_lookup. Qed.

(** Where the entry [first], alone under priority 0 when the other
    registrations are made, stands in the schedule. *)
Lemma schedule_around_builtin regs (first : Callback U) :
  ∃ pre post,
    schedule (registered _on_startup regs {[0 := [first]]})
    = pre ++ (0, first) :: post
    ∧ (∀ x, x ∈ pre → x.1 < 0)
    ∧ (∀ x, x ∈ post → 0 ≤ x.1 ∧ x ∈ regs).
Proof.
  set (reg := registered _on_startup regs {[0 := [first]]}).
  exists (filter (λ x, x.1 < 0) (schedule reg)),
    (filter (λ x, x.1 = 0) regs ++ filter (λ x, 0 < x.1) (schedule reg)).
  split; [|split].
  - rewrite (sorted_split (schedule reg) 0) at 1 by apply schedule_sorted.
    f_equal. unfold reg. rewrite schedule_registered_from, lookup_singleton_eq.
    rewrite (filter_priority_fmap 0 regs). reflexivity.
  - intros x. rewrite list_elem_of_filter. tauto.
  - intros x. rewrite elem_of_app, !list_elem_of_filter.
    intros [[Hx Hin]|[Hx Hin]]; [split; [lia|done]|]. split; [lia|].
    assert (x ∈ filter (λ y, y.1 = x.1) (schedule reg)) as Hf
      by by apply list_elem_of_filter.
    unfold reg in Hf. rewrite schedule_registered_from in Hf.
    rewrite lookup_singleton_ne in Hf by lia. simpl in Hf.
    rewrite <-filter_priority_fmap in Hf.
    by apply list_elem_of_filter in Hf as [_ ?].
Qed.

Lemma calls_keep_stopped (fs : list (Callback U)) p :
  Forall keeps_stopped fs →
  stopped (world (final (for_each fs call p))) = stopped (world p).
Proof.
  intros Hfs. revert p. induction Hfs as [|f fs Hf _ IH]; intros p; [done|].
  simpl. unfold bind, call. specialize (Hf (world p)).
  destruct (cb_body f (world p)) as [[] w|e w]; [|done].
  rewrite IH. done.
Qed.

Lemma shutdown_calls_keep_stopped (fs : list (Callback U)) p :
  Forall keeps_stopped fs →
  stopped (world (final (for_each fs shutdown_call p))) = stopped (world p).
Proof.
  intros Hfs. revert p. induction Hfs as [|f fs Hf _ IH]; intros p; [done|].
  simpl. unfold bind, shutdown_call, try_except, call, warn.
  specialize (Hf (world p)).
  destruct (cb_body f (world p)) as [[] w|e w].
  - by rewrite IH.
  - destruct (is_Exception e); [|done]. by rewrite IH.
Qed.

(** What a run that returns leaves in the event, when the entry [first]
    of the schedule puts [b] there and everything after keeps it. *)
Lemma run_through_builtin (body : Callback U → M (Process U) unit)
    (pre post : list (Callback U)) (first : Callback U) (b : bool) p p' :
  (∀ q, stopped (world (final (body first q))) = b) →
  (∀ q, stopped (world (final (for_each post body q))) = stopped (world q)) →
  for_each (pre ++ first :: post) body p = Returns () p' →
  stopped (world p') = b.
Proof.
  intros Hfirst Hpost. rewrite for_each_app. unfold bind at 1.
  destruct (for_each pre body p) as [[] p1|e p1]; [|done]. simpl.
  unfold bind. specialize (Hfirst p1).
  destruct (body first p1) as [[] p2|e p2]; [|done]. simpl in Hfirst.
  intros Hrun. specialize (Hpost p2). rewrite Hrun in Hpost. simpl in Hpost.
  congruence.
Qed.

End builtin.

Section builtin_claim.
Context {U : Type}.
Implicit Types (regs : list (Z * Callback U)) (p : Process U).

(** C10, as amended. When the module has been imported the startup
    registry holds [stopped.clear] and the shutdown registry holds
    [stopped.set], each alone under priority 0. Whatever is registered
    later, only callbacks of negative priority run before the built-in
    entry, so it runs before every callback of positive priority. When
    no later callback of priority 0 or more changes the event, the event
    is clear after a [_run_startup] that returns and set after a
    [_run_shutdown] that returns. *)
Theorem builtin_stopped_entries regs_up regs_down :
  let startup := registered _on_startup regs_up _startup_registry in
  let shutdown := registered _on_shutdown regs_down _shutdown_registry in
  (@_startup_registry U = {[0 := [stopped_clear]]}
   ∧ @_shutdown_registry U = {[0 := [stopped_set]]}
   ∧ (∀ w : World U, cb_body stopped_clear w = Returns () (set_stopped false w))
   ∧ (∀ w : World U, cb_body stopped_set w = Returns () (set_stopped true w)))
  ∧ (∃ pre post,
       schedule startup = pre ++ (0, stopped_clear) :: post
       ∧ (∀ x, x ∈ pre → x.1 < 0)
       ∧ (∀ x, x ∈ post → 0 ≤ x.1 ∧ x ∈ regs_up))
  ∧ (∃ pre post,
       schedule shutdown = pre ++ (0, stopped_set) :: post
       ∧ (∀ x, x ∈ pre → x.1 < 0)
       ∧ (∀ x, x ∈ post → 0 ≤ x.1 ∧ x ∈ regs_down))
  ∧ ((∀ x, x ∈ regs_up → 0 ≤ x.1 → keeps_stopped x.2) →
     ∀ p p', _run_startup startup p = Returns () p' →
             stopped (world p') = false)
  ∧ ((∀ x, x ∈ regs_down → 0 ≤ x.1 → keeps_stopped x.2) →
     ∀ p p', _run_shutdown shutdown p = Returns () p' →
             stopped (world p') = true).
Proof.
  intros startup shutdown.
  assert (@_startup_registry U = {[0 := [stopped_clear]]}) as Hup
    by (unfold _startup_registry, on_startup, _on_startup;
        by rewrite lookup_empty, insert_empty).
  assert (@_shutdown_registry U = {[0 := [stopped_set]]}) as Hdown
    by (unfold _shutdown_registry, on_shutdown, _on_shutdown;
        by rewrite lookup_empty, insert_empty).
  pose proof (schedule_around_builtin regs_up stopped_clear) as Hsu.
  pose proof (schedule_around_builtin regs_down stopped_set) as Hsd.
  rewrite <-Hup in Hsu. rewrite <-Hdown in Hsd.
  split; [by repeat split|]. split; [exact Hsu|]. split; [exact Hsd|].
  split.
  - intros Hkeep p p'. destruct Hsu as (pre & post & Hsched & _ & Hpost).
    unfold startup. rewrite run_startup_schedule, Hsched, fmap_app, fmap_cons.
    apply run_through_builtin.
    + intros q. unfold call. done.
    + intros q. apply calls_keep_stopped. apply Forall_forall.
      intros f. rewrite list_elem_of_fmap. intros [x [-> Hx]].
      destruct (Hpost x Hx). by apply Hkeep.
  - intros Hkeep p p'. destruct Hsd as (pre & post & Hsched & _ & Hpost).
    unfold shutdown. rewrite run_shutdown_schedule.
    change (@_on_shutdown U) with (@_on_startup U).
    rewrite Hsched, fmap_app, fmap_cons.
    apply run_through_builtin.
    + intros q. unfold shutdown_call, try_except, call. done.
    + intros q. apply shutdown_calls_keep_stopped. apply Forall_forall.
      intros f. rewrite list_elem_of_fmap. intros [x [-> Hx]].
      destruct (Hpost x Hx). by apply Hkeep.
Qed.

End builtin_claim.

(** ** The main loop *)

Section mainloop_facts.
Context {U : Type}.
Implicit Types (startup shutdown : Registry U) (p : Process U).





End mainloop_facts.

(** ** The properties on concrete registries *)

Section concrete.
Import Examples.

Lemma quiet_raises_only_errors name : raises_only_errors (quiet name).
Proof. intros w e w'. simpl. discriminate. Qed.

Lemma quiet_keeps_stopped name : keeps_stopped (quiet name).
Proof. intros w. reflexivity. Qed.

Lemma three_shutdown_schedule :
  schedule three_shutdown
  = [(10, quiet "first"); (20, failing "second" boom); (30, quiet "third")].
Proof. vm_compute. reflexivity. Qed.

Lemma three_shutdown_errors x :
  x ∈ schedule three_shutdown → raises_only_errors x.2.
Proof.
  rewrite three_shutdown_schedule, !elem_of_cons, elem_of_nil.
  intros [->|[->|[->|[]]]]; simpl; try apply quiet_raises_only_errors.
  intros w e w'. simpl. by intros [= <- _].
Qed.

Lemma shutdown_isolates_errors_witness :
  (∀ x, x ∈ schedule three_shutdown → raises_only_errors x.2)
  ∧ _run_shutdown three_shutdown p0
    = Returns () {| world := log_warn shutdown_message (Some boom) w0;
                    called := ["first"; "second"; "third"] |}.
Proof.
  split; [exact three_shutdown_errors|].
  apply (proj2 (shutdown_isolates_errors three_shutdown p0 three_shutdown_errors)
           (quiet "first") (failing "second" boom) (quiet "third")
           w0 boom w0 w0_warned).
  - vm_compute. reflexivity.
  - reflexivity.
  - reflexivity.
  - reflexivity.
Defined.

Lemma startup_aborts_on_failure_witness :
  (schedule two_startup).*2 = [] ++ failing "first" boom :: [quiet "second"]
  ∧ for_each [] call p0 = Returns () p0
  ∧ cb_body (failing "first" boom) (world p0) = Raises boom w0
  ∧ _run_startup two_startup p0
    = Raises boom {| world := w0; called := ["first"] |}.
Proof.
  assert ((schedule two_startup).*2
          = [] ++ failing "first" boom :: [quiet "second"]) as Hsched
    by (vm_compute; reflexivity).
  split; [exact Hsched|]. split; [reflexivity|]. split; [reflexivity|].
  exact (startup_aborts_on_failure two_startup p0 p0 []
           (failing "first" boom) [quiet "second"] boom w0
           Hsched eq_refl eq_refl).
Defined.

Lemma shutdown_lets_base_exceptions_through_witness :
  (schedule interrupted_shutdown).*2
  = [quiet "first"] ++ failing "second" KeyboardInterrupt :: [quiet "third"]
  ∧ for_each [quiet "first"] shutdown_call p0
    = Returns () {| world := w0; called := ["first"] |}
  ∧ cb_body (failing "second" KeyboardInterrupt) w0 = Raises KeyboardInterrupt w0
  ∧ _run_shutdown interrupted_shutdown p0
    = Raises KeyboardInterrupt {| world := w0; called := ["first"; "second"] |}.
Proof.
  assert ((schedule interrupted_shutdown).*2
          = [quiet "first"] ++ failing "second" KeyboardInterrupt
                                 :: [quiet "third"]) as Hsched
    by (vm_compute; reflexivity).
  split; [exact Hsched|]. split; [reflexivity|]. split; [reflexivity|].
  exact (shutdown_lets_base_exceptions_through interrupted_shutdown p0
           {| world := w0; called := ["first"] |} [quiet "first"]
           (failing "second" KeyboardInterrupt) [quiet "third"]
           KeyboardInterrupt w0 Hsched eq_refl eq_refl).
Defined.

Lemma plugin_start_keeps_stopped (x : Z * Callback unit) :
  x ∈ [(50, quiet "plugin_start")] → 0 ≤ x.1 → keeps_stopped x.2.
Proof. rewrite list_elem_of_singleton. intros -> _. apply quiet_keeps_stopped. Qed.

Lemma builtin_stopped_entries_witness :
  (∀ x : Z * Callback unit,
     x ∈ [(50, quiet "plugin_start")] → 0 ≤ x.1 → keeps_stopped x.2)
  ∧ (∀ p p', _run_startup startup_with_quiet p = Returns () p' →
             stopped (world p') = false).
Proof.
  split; [exact plugin_start_keeps_stopped|].
  exact (proj1 (proj2 (proj2 (proj2
           (builtin_stopped_entries [(50, quiet "plugin_start")] []))))
           plugin_start_keeps_stopped).
Defined.

(** C10 as it is written fails: a startup callback that sets the event
    leaves it set when [_run_startup] returns, and a shutdown callback
    that clears it leaves it clear when [_run_shutdown] returns. *)
Lemma stopped_after_run_counterexample :
  ¬ (∀ (regs : list (Z * Callback unit)) p p',
       _run_startup (registered _on_startup regs _startup_registry) p
       = Returns () p' → stopped (world p') = false)
  ∧ ¬ (∀ (regs : list (Z * Callback unit)) p p',
         _run_shutdown (registered _on_shutdown regs _shutdown_registry) p
         = Returns () p' → stopped (world p') = true).
Proof.
  split.
  - intros Hclaim.
    assert (_run_startup startup_with_stop p0
            = Returns () {| world := set_stopped true w0;
                            called := ["stopped.clear"; "request_stop"] |})
      as Hrun by (vm_compute; reflexivity).
    apply Hclaim in Hrun. discriminate Hrun.
  - intros Hclaim.
    assert (_run_shutdown shutdown_with_reset p0
            = Returns () {| world := set_stopped false w0;
                            called := ["stopped.set"; "reset_event"] |})
      as Hrun by (vm_compute; reflexivity).
    apply Hclaim in Hrun. discriminate Hrun.
Qed.


(** The run of the witness above, to its end: after two waits the
    operator interrupts, the shutdown callbacks run and [mainloop]
    returns. *)
Example mainloop_interrupted :
  mainloop startup_with_quiet shutdown_with_quiet
    [TimedOut; TimedOut; WaitRaised KeyboardInterrupt] p0
  = Some (Returns ()
            {| world := set_stopped true w0;
               called := ["stopped.clear"; "plugin_start";
                          "stopped.set"; "plugin_stop"] |}).
Proof. vm_compute. reflexivity. Qed.



(** While nothing happens the loop goes on. *)
Example mainloop_waiting :
  mainloop startup_with_quiet shutdown_with_quiet
    [TimedOut; TimedOut; TimedOut] p0 = None.
Proof. vm_compute. reflexivity. Qed.

End concrete.
End LifecycleFacts.

(** * Properties of the connection checker *)

Module CheckerFacts.
Import Checker Examples.

Lemma port_or_default_explicit n scheme :
  n ≠ 0 → port_or_default (Some n) scheme = n.
Proof. intros Hn. unfold port_or_default. by rewrite bool_decide_eq_false_2. Qed.

Lemma port_or_default_secure scheme :
  scheme = "https" ∨ scheme = "wss" → port_or_default None scheme = 443.
Proof. by intros [->| ->]. Qed.

Lemma port_or_default_plain scheme :
  scheme ≠ "https" → scheme ≠ "wss" → port_or_default None scheme = 80.
Proof.
  intros H1 H2. unfold port_or_default, default_port.
  rewrite bool_decide_eq_false_2; [done|].
  rewrite !elem_of_cons, elem_of_nil. tauto.
Qed.

(** C8, as amended. [_check] opens each of its connections without a
    timeout argument, so that the time a connection attempt may take is
    the process-wide default of the socket module, unlimited unless the
    process has set one. *)
Theorem connect_uses_default_timeout net url ssl_params calls :
  ∃ new,
    final (_check net url ssl_params calls) = calls ++ new
    ∧ ∀ host port timeout,
        CreateConnection host port timeout ∈ new →
        timeout = GlobalDefault
        ∧ ∀ process_default,
            effective_timeout process_default timeout = process_default.
Proof.
  check_paths; rewrite <-?app_assoc; simpl;
    (eexists; split; [try reflexivity; by rewrite app_nil_r|]);
    intros host port timeout; rewrite ?elem_of_cons, elem_of_nil;
    intros Hin; destruct_or?; simplify_eq; done.
Qed.


(** C8 as it is written fails: on a network that answers, the connection
    of the probe is opened with no timeout of its own, and with the
    default of the socket module left as it is at import the attempt has
    no time limit. *)
Lemma connect_timeout_counterexample :
  ¬ (∀ process_default net url ssl_params host port timeout,
       CreateConnection host port timeout
         ∈ final (_check net url ssl_params []) →
       is_Some (effective_timeout process_default timeout)).
Proof.
  intros Hclaim.
  destruct (Hclaim None (net_up port_8080_url) "http://example.com:8080/"
              no_credentials (Some "example.com") 8080 GlobalDefault)
    as [seconds Hbound]; [|discriminate Hbound].
  vm_compute. apply list_elem_of_In. right. left. reflexivity.
Qed.

(** The connect stage goes to the host of the URL on the port computed
    from it. *)
Lemma connect_stage_port net url ssl_params calls parsed parsed_port ip :
  urlparse net url = inr parsed →
  port parsed = inr parsed_port →
  gethostbyname net calls (hostname parsed) = inr ip →
  ∃ rest,
    final (_check net url ssl_params calls)
    = calls ++ [Gethostbyname (hostname parsed);
                CreateConnection (hostname parsed)
                  (port_or_default parsed_port (scheme parsed)) GlobalDefault]
            ++ rest.
Proof.
  intros Hparse Hport Hdns. unfold_check. rewrite Hparse, Hport, Hdns. simpl.
  repeat (case_match; simplify_eq/=); rewrite <-?app_assoc; simpl;
    eexists; f_equal; f_equal; f_equal; try reflexivity.
  all: by rewrite ?app_nil_r.
Qed.

(** C4, on the input where the code leaves it. The URL
    [http://example.com:0/] names port 0; [parsed.port or ...] takes the
    0 for a missing port, and the probe reports and connects to port 80. *)
Theorem explicit_port_zero_is_replaced :
  port zero_port_url = inr (Some 0)
  ∧ _check (net_up zero_port_url) "http://example.com:0/" no_credentials []
    = Returns
        [Checking "http://example.com:0/";
         UsingHostPort (Some "example.com") 80;
         Resolved (Some "example.com") "93.184.216.34";
         Connected (Some "example.com") 80;
         EverythingWorks]
        [Gethostbyname (Some "example.com");
         CreateConnection (Some "example.com") 80 GlobalDefault].
Proof. split; vm_compute; reflexivity. Qed.

(** C5. When the name of the host does not resolve, the report is the
    two lines of the parse stage and the line of the failed resolution;
    the only call on the network is the resolution. *)
Theorem dns_failure_stops_probe net url ssl_params calls parsed parsed_port e :
  urlparse net url = inr parsed →
  port parsed = inr parsed_port →
  gethostbyname net calls (hostname parsed) = inl e →
  is_Exception e = true →
  let status :=
    [Checking url;
     UsingHostPort (hostname parsed)
       (port_or_default parsed_port (scheme parsed));
     FailedResolve e] in
  _check net url ssl_params calls
  = Returns status (calls ++ [Gethostbyname (hostname parsed)])
  ∧ stage_of <$> status = [ParseStage; ParseStage; ResolveStage].
Proof.
  intros Hparse Hport Hdns He. split; [|reflexivity].
  unfold_check. by rewrite Hparse, Hport, Hdns, He.
Qed.

Lemma dns_failure_stops_probe_witness :
  urlparse (net_no_dns https_url) "https://example.com/" = inr https_url
  ∧ port https_url = inr None
  ∧ gethostbyname (net_no_dns https_url) [] (hostname https_url)
    = inl name_not_known
  ∧ is_Exception name_not_known = true
  ∧ _check (net_no_dns https_url) "https://example.com/" ca_only []
    = Returns
        [Checking "https://example.com/";
         UsingHostPort (Some "example.com") 443;
         FailedResolve name_not_known]
        [Gethostbyname (Some "example.com")].
Proof.
  repeat (split; [reflexivity|]).
  exact (proj1 (dns_failure_stops_probe (net_no_dns https_url)
                  "https://example.com/" ca_only [] https_url None
                  name_not_known eq_refl eq_refl eq_refl eq_refl)).
Defined.


(** C6, as amended. Without a credential that is set, no line of the
    report comes from the TLS stages and no handshake is attempted. With
    one, and once the name has resolved and the connection is open, the
    handshake without validation is attempted on that connection, which
    is then closed; once that handshake has succeeded a second connection
    is opened, and once it is open the validating handshake is attempted
    on it. *)
Theorem tls_stages_gated_by_credentials net url ssl_params calls :
  (any_values ssl_params = false →
   ∃ new,
     final (_check net url ssl_params calls) = calls ++ new
     ∧ Forall (λ c, ¬ is_wrap c) new
     ∧ ∀ status calls',
         _check net url ssl_params calls = Returns status calls' →
         Forall (λ l, stage_of l ≠ TlsStage) status)
  ∧ (any_values ssl_params = true →
     ∀ parsed parsed_port ip sock,
       urlparse net url = inr parsed →
       port parsed = inr parsed_port →
       let host := hostname parsed in
       let port := port_or_default parsed_port (scheme parsed) in
       let opened :=
         (calls ++ [Gethostbyname host])
         ++ [CreateConnection host port GlobalDefault] in
       let shaken :=
         (opened ++ [WrapSocket sock CERT_NONE ssl_params]) ++ [Close sock] in
       gethostbyname net calls host = inr ip →
       create_connection net (calls ++ [Gethostbyname host]) host port
         GlobalDefault = inr sock →
       ∃ rest,
         final (_check net url ssl_params calls) = shaken ++ rest
         ∧ (wrap_socket net opened sock CERT_NONE ssl_params = inr () →
            ∃ rest',
              rest = CreateConnection host port GlobalDefault :: rest'
              ∧ ∀ sock2,
                  create_connection net shaken host port GlobalDefault
                  = inr sock2 →
                  rest' = [WrapSocket sock2 CERT_REQUIRED ssl_params;
                           Close sock2])).
Proof.
  split.
  - intros Hnone. unfold_check. rewrite Hnone.
    repeat (case_match; simplify_eq/=; try done); rewrite <-?app_assoc; simpl;
      (eexists; split; [try reflexivity; by rewrite app_nil_r|]);
      (split; [repeat constructor; simpl; tauto|]);
      intros status calls' [= <- <-]; repeat constructor; done.
  - intros Hany parsed parsed_port ip sock Hparse Hport host port' opened shaken
      Hdns Hconn.
    unfold_check. rewrite Hparse, Hport. fold host port'.
    rewrite Hdns. simpl. rewrite Hconn. simpl. rewrite Hany.
    fold opened.
    destruct (wrap_socket net opened sock CERT_NONE ssl_params) as [e|[]]
      eqn:Hwrap; simpl.
    + destruct (is_Exception e); simpl; exists []; rewrite app_nil_r;
        (split; [reflexivity|done]).
    + fold shaken.
      destruct (create_connection net shaken host port' GlobalDefault)
        as [e|sock2] eqn:Hconn2; simpl.
      * destruct (is_Exception e); simpl; eexists;
          (split; [reflexivity|]); intros _; eexists;
          (split; [reflexivity|done]).
      * destruct (wrap_socket net _ sock2 CERT_REQUIRED ssl_params)
          as [e|[]]; simpl; [destruct (is_Exception e); simpl|];
          rewrite <-?app_assoc; simpl;
          (eexists; split;
           [unfold shaken, opened; rewrite <-?app_assoc; simpl; reflexivity|]);
          intros _; eexists; (split; [reflexivity|]);
          by intros ? [= <-].
Qed.

Lemma tls_stages_gated_by_credentials_witness :
  any_values ca_only = true
  ∧ any_values no_credentials = false
  ∧ (∀ status calls',
       _check (net_up https_url) "https://example.com/" no_credentials []
       = Returns status calls' →
       Forall (λ l, stage_of l ≠ TlsStage) status)
  ∧ ∃ rest,
      final (_check (net_up https_url) "https://example.com/" ca_only [])
      = [Gethostbyname (Some "example.com");
         CreateConnection (Some "example.com") 443 GlobalDefault;
         WrapSocket 1%nat CERT_NONE ca_only; Close 1%nat] ++ rest.
Proof.
  split; [reflexivity|]. split; [reflexivity|]. split.
  - destruct (proj1 (tls_stages_gated_by_credentials (net_up https_url)
                       "https://example.com/" no_credentials []) eq_refl)
      as (new & _ & _ & Hlines).
    exact Hlines.
  - destruct (proj2 (tls_stages_gated_by_credentials (net_up https_url)
                       "https://example.com/" ca_only []) eq_refl
                https_url None "93.184.216.34" 1%nat
                eq_refl eq_refl eq_refl eq_refl)
      as (rest & Hcalls & _).
    exists rest. exact Hcalls.
Defined.

(** C6 as it is written fails in its second half: with a credential set
    and a host name that does not resolve, no handshake is attempted. *)
Lemma tls_attempt_counterexample :
  ¬ (∀ net url ssl_params,
       any_values ssl_params = true →
       ∃ sock reqs,
         WrapSocket sock reqs ssl_params
           ∈ final (_check net url ssl_params [])).
Proof.
  intros Hclaim.
  destruct (Hclaim (net_no_dns https_url) "https://example.com/" ca_only
              eq_refl) as (sock & reqs & Hin).
  vm_compute in Hin. apply list_elem_of_In in Hin as [Hin|[]]. discriminate Hin.
Qed.

(** The probes of the examples, run to their end. *)
Example probe_with_credentials :
  _check (net_up https_url) "https://example.com/" ca_only []
  = Returns
      [Checking "https://example.com/";
       UsingHostPort (Some "example.com") 443;
       Resolved (Some "example.com") "93.184.216.34";
       Connected (Some "example.com") 443;
       HandshakeSucceeded;
       EverythingWorks]
      [Gethostbyname (Some "example.com");
       CreateConnection (Some "example.com") 443 GlobalDefault;
       WrapSocket 1%nat CERT_NONE ca_only;
       Close 1%nat;
       CreateConnection (Some "example.com") 443 GlobalDefault;
       WrapSocket 4%nat CERT_REQUIRED ca_only;
       Close 4%nat].
Proof. vm_compute. reflexivity. Qed.

Example probe_explicit_port :
  _check (net_up port_8080_url) "http://example.com:8080/" no_credentials []
  = Returns
      [Checking "http://example.com:8080/";
       UsingHostPort (Some "example.com") 8080;
       Resolved (Some "example.com") "93.184.216.34";
       Connected (Some "example.com") 8080;
       EverythingWorks]
      [Gethostbyname (Some "example.com");
       CreateConnection (Some "example.com") 8080 GlobalDefault].
Proof. vm_compute. reflexivity. Qed.

(** The text of the report of a probe whose host name does not
    resolve. *)
Example failed_resolution_report :
  render (λ _, "{}") <$>
    [Checking "https://example.com/";
     UsingHostPort (Some "example.com") 443;
     FailedResolve name_not_known]
  = ["checking https://example.com/";
     "using hostname example.com and port 443";
     "failed to resolve host with DNS: [Errno -2] Name or service not known"].
Proof. vm_compute. reflexivity. Qed.

End CheckerFacts.

(** * More on the lifecycle registry *)

Module RegistryFacts.
Import Lifecycle LifecycleFacts.

Section registration.
Context {U : Type}.
Implicit Types (reg : Registry U) (l : list (Z * Callback U)).
Implicit Types (p : Process U).

(** Two lists sorted by priority that agree under every priority are
    equal. *)
Lemma sorted_by_priority_ext l1 l2 :
  StronglySorted by_priority l1 → StronglySorted by_priority l2 →
  (∀ k, filter (λ x, x.1 = k) l1 = filter (λ x, x.1 = k) l2) →
  l1 = l2.
Proof.
  revert l2. induction l1 as [|x l1 IH]; intros l2 Hs1 Hs2 Hf.
  - destruct l2 as [|y l2]; [done|]. specialize (Hf y.1).
    rewrite filter_cons, decide_True in Hf by done. done.
  - destruct l2 as [|y l2].
    { specialize (Hf x.1). rewrite filter_cons, decide_True in Hf by done.
      done. }
    apply StronglySorted_cons in Hs1 as [Hx Hs1].
    apply StronglySorted_cons in Hs2 as [Hy Hs2].
    rewrite Forall_forall in Hx, Hy. unfold by_priority in Hx, Hy.
    assert (y.1 ≤ x.1) as Hyx.
    { assert (x ∈ filter (λ z, z.1 = x.1) (y :: l2)) as Hin.
      { rewrite <-Hf. apply list_elem_of_filter. split; [done|]. by left. }
      apply list_elem_of_filter in Hin as [_ Hin].
      apply elem_of_cons in Hin as [->|Hin]; [lia|]. by apply Hy. }
    assert (x.1 ≤ y.1) as Hxy.
    { assert (y ∈ filter (λ z, z.1 = y.1) (x :: l1)) as Hin.
      { rewrite Hf. apply list_elem_of_filter. split; [done|]. by left. }
      apply list_elem_of_filter in Hin as [_ Hin].
      apply elem_of_cons in Hin as [->|Hin]; [lia|]. by apply Hx. }
    assert (x = y) as <-.
    { specialize (Hf x.1).
      rewrite !filter_cons, decide_True, decide_True in Hf by lia.
      congruence. }
    f_equal. apply IH; [done..|]. intros k. specialize (Hf k).
    rewrite !filter_cons in Hf. destruct (decide (x.1 = k)); congruence.
Qed.

Lemma filter_sorted (P : Z * Callback U → Prop) `{∀ x, Decision (P x)} l :
  StronglySorted by_priority l → StronglySorted by_priority (filter P l).
Proof.
  induction 1 as [|x l Hl IH Hall]; [constructor|].
  rewrite filter_cons. destruct (decide (P x)); [|done].
  constructor; [done|]. rewrite Forall_forall in *. intros y Hy.
  apply list_elem_of_filter in Hy as [_ Hy]. by apply Hall.
Qed.

(** X1. One more registration leaves every callback already registered
    where it was and puts the new one after all those of the same or a
    lower priority and before all those of a higher priority. *)
Theorem schedule_after_registration reg func priority :
  schedule (_on_startup func priority reg)
  = filter (λ x, x.1 ≤ priority) (schedule reg)
    ++ (priority, func) :: filter (λ x, priority < x.1) (schedule reg).
Proof.
  apply sorted_by_priority_ext.
  - apply schedule_sorted.
  - apply StronglySorted_app_2.
    + intros x y Hx Hy. apply list_elem_of_filter in Hx as [Hx _].
      apply elem_of_cons in Hy as [->|Hy]; [done|].
      apply list_elem_of_filter in Hy as [Hy _]. unfold by_priority. lia.
    + apply filter_sorted, schedule_sorted.
    + constructor; [apply filter_sorted, schedule_sorted|].
      apply Forall_forall. intros y Hy.
      apply list_elem_of_filter in Hy as [Hy _]. unfold by_priority. simpl. lia.
  - intros k. rewrite filter_app, filter_cons, !list_filter_filter. simpl.
    rewrite schedule_filter. unfold _on_startup.
    destruct (decide (priority = k)) as [->|Hne].
    + rewrite lookup_insert_eq. simpl. rewrite fmap_app. simpl.
      rewrite <-schedule_filter. f_equal.
      * apply list_filter_iff. intros x. lia.
      * f_equal. symmetry. apply filter_none. apply Forall_forall.
        intros x _. lia.
    + rewrite lookup_insert_ne by done. rewrite <-schedule_filter.
      destruct (decide (k < priority)).
      * rewrite (filter_none (λ x, x.1 = k ∧ priority < x.1)), app_nil_r
          by (apply Forall_forall; intros x _; lia).
        apply list_filter_iff. intros x. lia.
      * rewrite (filter_none (λ x, x.1 = k ∧ x.1 ≤ priority))
          by (apply Forall_forall; intros x _; lia).
        simpl. apply list_filter_iff. intros x. lia.
Qed.

(** X2. Registrations only add: after any sequence of registrations on
    any registry, the schedule is the old schedule and the new
    registrations, each exactly once, in some order. *)
Theorem registrations_are_kept regs reg :
  schedule (registered _on_startup regs reg) ≡ₚ schedule reg ++ regs.
Proof.
  revert reg. induction regs as [|[k f] regs IH]; intros reg; simpl.
  - by rewrite app_nil_r.
  - rewrite IH, schedule_after_registration.
    assert (filter (λ x, x.1 ≤ k) (schedule reg)
              ++ (k, f) :: filter (λ x, k < x.1) (schedule reg)
            ≡ₚ (k, f) :: schedule reg) as ->.
    { rewrite <-Permutation_middle. apply Permutation_skip.
      rewrite (list_filter_iff (λ x, k < x.1) (λ x, ¬ x.1 ≤ k))
        by (intros x; lia).
      apply filter_app_complement. }
    simpl. by rewrite <-Permutation_middle.
Qed.

(** X3. As long as no callback raises, [_run_shutdown] does on a registry
    what [_run_startup] does on it: the handler of [_run_shutdown] comes
    into play, and the log is written, only when a callback raises. *)
Theorem shutdown_as_startup_without_failure reg p p' :
  _run_startup reg p = Returns () p' → _run_shutdown reg p = Returns () p'.
Proof.
  rewrite run_startup_schedule, run_shutdown_schedule.
  generalize ((schedule reg).*2). intros fs. revert p.
  induction fs as [|f fs IH]; intros p; simpl; [done|].
  unfold bind, shutdown_call, try_except.
  destruct (call f p) as [[] p1|e p1]; [apply IH|done].
Qed.

End registration.

Section waiting.
Context {U : Type}.
Implicit Types (startup shutdown : Registry U) (p : Process U).

(** X4. [mainloop] comes back only for a reason: a startup callback
    raised, the event was set when the startup ended, another thread
    set it during a wait, or a wait raised. With nothing but waits that
    time out it does not come back. *)
Theorem mainloop_returns_for_a_reason startup shutdown evs p r :
  mainloop startup shutdown evs p = Some r →
  (∃ e p1, _run_startup startup p = Raises e p1)
  ∨ (∃ p1, _run_startup startup p = Returns () p1
           ∧ stopped (world p1) = true)
  ∨ StopRequested ∈ evs
  ∨ ∃ e, WaitRaised e ∈ evs.
Proof.
  unfold mainloop.
  destruct (_run_startup startup p) as [[] p1|e p1]; [|by left; eauto].
  intros Hmain. destruct (stopped (world p1)) eqn:Hs; [right; left; eauto|].
  right. right. destruct (wait_loop evs p1) as [r0|] eqn:Hwait; [|done].
  clear Hmain. revert p1 Hs Hwait.
  induction evs as [|ev evs IH]; intros p1 Hs; simpl; rewrite Hs; [done|].
  destruct ev as [| |e].
  - intros Hw. destruct (IH _ Hs Hw) as [?|[e ?]].
    + left. by right.
    + right. exists e. by right.
  - intros _. left. by left.
  - intros _. right. exists e. by left.
Qed.

End waiting.

End RegistryFacts.

(** * More on the connection checker *)

Module ProbeFacts.
Import Checker Report.

(** X5. A report that [_check] returns begins with the line that names
    the URL and ends with its one verdict, a failure or "everything
    seems to work"; no line before the last is a verdict, so that
    nothing follows a failure. *)
Theorem report_shape net url ssl_params calls status calls' :
  _check net url ssl_params calls = Returns status calls' →
  head status = Some (Checking url)
  ∧ (∃ l, last status = Some l
          ∧ (is_failure l = true ∨ l = EverythingWorks))
  ∧ Forall (λ l, is_failure l = false ∧ l ≠ EverythingWorks)
      (removelast status).
Proof.
  unfold_check.
  repeat (case_match; simplify_eq/=; try done); intros [= <- <-];
    (split; [reflexivity|]);
    (split; [eexists; split; [reflexivity|]; by eauto|]);
    simpl; repeat constructor; done.
Qed.

(** X6. Every handshake [_check] attempts is followed at once by the
    closing of the socket it was attempted on, however the handshake
    and the probe end. *)
Theorem handshake_socket_is_closed net url ssl_params calls :
  ∃ new,
    final (_check net url ssl_params calls) = calls ++ new
    ∧ ∀ (i : nat) sock reqs params,
        new !! i = Some (WrapSocket sock reqs params) →
        new !! S i = Some (Close sock).
Proof.
  check_paths; rewrite <-?app_assoc; simpl;
    (eexists; split; [try reflexivity; by rewrite app_nil_r|]);
    intros i sock' reqs params;
    repeat (destruct i as [|i]; simplify_eq/=; try done);
    by intros [= <- _ _].
Qed.


(** X8. The failures of the stages are reported, not raised: an
    instance of [Exception] leaves [_check] only when it comes from
    reading the port of the parsed URL, which the probe does outside its
    [try] blocks, and then before any call on the network. *)
Theorem only_the_port_escapes net url ssl_params calls e calls' :
  _check net url ssl_params calls = Raises e calls' →
  is_Exception e = true →
  ∃ parsed,
    urlparse net url = inr parsed ∧ port parsed = inl e ∧ calls' = calls.
Proof.
  unfold_check.
  repeat (case_match; simplify_eq/=; try done);
    intros [= <- <-] He; try congruence; by eexists.
Qed.

(** X9. On a network whose answers do not depend on what was asked
    before, the report of a probe does not depend on the probes made
    before it. *)
Theorem report_is_independent net url ssl_params calls :
  memoryless net →
  outcome (_check net url ssl_params calls)
  = outcome (_check net url ssl_params []).
Proof.
  intros (Hdns & Hconn & Hwrap). unfold_check.
  repeat (case_match; simplify_eq/=; try done);
    repeat match goal with
    | H : context [gethostbyname net ?h ?x] |- _ =>
        lazymatch h with [] => fail | _ => rewrite (Hdns h [] x) in H end
    | H : context [create_connection net ?h ?x ?y ?z] |- _ =>
        lazymatch h with [] => fail | _ => rewrite (Hconn h [] x y z) in H end
    | H : context [wrap_socket net ?h ?x ?y ?z] |- _ =>
        lazymatch h with [] => fail | _ => rewrite (Hwrap h [] x y z) in H end
    end;
    repeat match goal with
    | H1 : ?t = inr ?a, H2 : ?t = inr ?b |- _ =>
        assert (a = b) as -> by congruence; clear H2
    end;
    congruence.
Qed.

End ProbeFacts.

(** * The report over all services *)

Module ReportFacts.
Import Checker Report ProbeFacts.

Lemma leb_trans a b c :
  String.leb a b = true → String.leb b c = true → String.leb a c = true.
Proof.
  unfold String.leb.
  change String.compare with OrdersEx.String_as_OT.compare.
  destruct (OrdersEx.String_as_OT.compare_spec a b) as [->|Hab|Hab];
    [done| |done].
  destruct (OrdersEx.String_as_OT.compare_spec b c) as [->|Hbc|Hbc].
  - intros _ _. unfold OrdersEx.String_as_OT.lt in Hab. by rewrite Hab.
  - intros _ _. pose proof (transitivity Hab Hbc) as H.
    unfold OrdersEx.String_as_OT.lt in H. by rewrite H.
  - intros _ H. discriminate H.
Qed.

Lemma name_le_trans : Transitive name_le.
Proof. intros x y z. unfold name_le. apply leb_trans. Qed.

Lemma name_le_total : Total name_le.
Proof. intros x y. unfold name_le. apply String.leb_total. Qed.

Lemma leb_ne_ltb a b : String.leb a b = true → a ≠ b → String.ltb a b = true.
Proof.
  unfold String.leb, String.ltb. destruct (String.compare a b) eqn:Hc; try done.
  intros _ Hne. by apply String.compare_eq_iff in Hc.
Qed.

(** What the loop of [check_all] leaves in the dictionary. *)
Lemma check_items_spec net items acc calls checks calls' :
  NoDup items.*1 →
  check_items net items acc calls = Returns checks calls' →
  (∀ name, name ∉ items.*1 → checks !! name = acc !! name)
  ∧ (∀ name jproxy,
       (name, jproxy) ∈ items →
       ∃ status c c',
         checks !! name = Some status
         ∧ _check net (service_url jproxy) (service_params jproxy) c
           = Returns status c').
Proof.
  revert acc calls. induction items as [|[n j] items IH]; intros acc calls.
  - intros _ [= <- <-]. split; [done|]. intros ? ?. by rewrite elem_of_nil.
  - rewrite fmap_cons, NoDup_cons. intros [Hn Hnd]. simpl. unfold bind.
    destruct (_check net (service_url j) (service_params j) calls)
      as [r c1|e c1] eqn:Hcheck; [|done].
    intros Hrun. destruct (IH _ _ Hnd Hrun) as [Hout Hin]. split.
    + intros name. rewrite not_elem_of_cons. intros [Hne Hname].
      rewrite Hout by done. by rewrite lookup_insert_ne.
    + intros name jproxy. rewrite elem_of_cons. intros [[= -> ->]|Hel].
      * exists r, calls, c1. split; [|done].
        rewrite Hout by done. by rewrite lookup_insert_eq.
      * by apply Hin.
Qed.

(** X10. When [check_all] returns, its dictionary has an entry for each
    service and for nothing else, and the entry of a service is a report
    that [_check] returned for the URL and the credentials of that
    service: it begins with the line naming that URL. *)
Theorem check_all_covers_services net services calls checks calls' :
  check_all net services calls = Returns checks calls' →
  ∀ name,
    match services !! name with
    | None => checks !! name = None
    | Some jproxy =>
        ∃ status c c',
          checks !! name = Some status
          ∧ _check net (service_url jproxy) (service_params jproxy) c
            = Returns status c'
          ∧ head status = Some (Checking (service_url jproxy))
    end.
Proof.
  unfold check_all. intros Hrun name.
  destruct (check_items_spec _ _ _ _ _ _ (NoDup_fst_map_to_list services) Hrun)
    as [Hout Hin].
  destruct (services !! name) as [jproxy|] eqn:Hlook.
  - apply elem_of_map_to_list in Hlook.
    destruct (Hin _ _ Hlook) as (status & c & c' & Hs & Hc).
    exists status, c, c'. split; [done|]. split; [done|].
    by destruct (report_shape _ _ _ _ _ _ Hc) as [? _].
  - rewrite Hout, lookup_empty; [done|]. rewrite list_elem_of_fmap.
    intros [[n j] [-> Hel]]. apply elem_of_map_to_list in Hel. simpl in *.
    congruence.
Qed.

(** X11. On a network without memory the services do not disturb each
    other: when [check_all] returns, the entry of each service is the
    report [_check] gives for it when it is probed alone. *)
Theorem check_all_is_pointwise net services calls checks calls' :
  memoryless net →
  check_all net services calls = Returns checks calls' →
  checks = report_of net <$> services.
Proof.
  intros Hnet Hrun. apply map_eq. intros name. rewrite lookup_fmap.
  pose proof (check_all_covers_services _ _ _ _ _ Hrun name) as Hname.
  destruct (services !! name) as [jproxy|]; [|done].
  destruct Hname as (status & c & c' & -> & Hc & _). simpl. f_equal.
  pose proof (report_is_independent net (service_url jproxy)
                (service_params jproxy) c Hnet) as Hind.
  rewrite Hc in Hind. unfold report_of.
  by destruct (_check net (service_url jproxy) (service_params jproxy) [])
    as [status0 ?|? ?]; simplify_eq/=.
Qed.

Lemma sorted_names_strict (l : list (string * list status_line)) :
  NoDup l.*1 → StronglySorted name_le l →
  StronglySorted (λ a b, String.ltb a b = true) l.*1.
Proof.
  induction l as [|x l IH]; [constructor|].
  rewrite fmap_cons, NoDup_cons, StronglySorted_cons.
  intros [Hx Hnd] [Hall Hs]. constructor; [by apply IH|].
  apply Forall_forall. intros n. rewrite list_elem_of_fmap.
  intros [y [-> Hy]]. rewrite Forall_forall in Hall.
  apply leb_ne_ltb; [by apply Hall|]. intros Heq. apply Hx.
  rewrite Heq. by apply list_elem_of_fmap_2.
Qed.

(** X12. When [check_connections] returns, it has printed one block of
    three texts for each service, and the blocks come in strictly
    ascending order of the service names. *)
Theorem check_connections_prints_sorted
    repr_params net services calls printed calls' :
  check_connections repr_params net services calls = Returns printed calls' →
  ∃ checks blocks,
    check_all net services calls = Returns checks calls'
    ∧ printed
      = blocks ≫= (λ '(service, results),
                     print_service repr_params service results)
    ∧ StronglySorted (λ a b, String.ltb a b = true) blocks.*1
    ∧ (∀ service results,
         (service, results) ∈ blocks ↔ checks !! service = Some results)
    ∧ length printed = (3 * size services)%nat.
Proof.
  unfold check_connections, bind, ret.
  destruct (check_all net services calls) as [checks c1|e c1] eqn:Hall; [|done].
  intros [= <- <-].
  set (blocks := merge_sort name_le (map_to_list checks)).
  assert (blocks ≡ₚ map_to_list checks) as Hperm
    by apply merge_sort_Permutation.
  exists checks, blocks. split; [done|]. split; [done|]. split; [|split].
  - apply sorted_names_strict.
    + rewrite Hperm. apply NoDup_fst_map_to_list.
    + apply (@StronglySorted_merge_sort _ name_le _ name_le_trans name_le_total).
  - intros service results. rewrite Hperm. apply elem_of_map_to_list.
  - assert (length (blocks ≫= (λ '(service, results),
              print_service repr_params service results))
            = (3 * length blocks)%nat) as ->.
    { clear. induction blocks as [|[s r] blocks IH]; [done|].
      rewrite bind_cons, length_app, IH. simpl. lia. }
    rewrite Hperm, length_map_to_list. f_equal.
    rewrite <-!size_dom. f_equal. apply set_eq. intros name.
    rewrite !elem_of_dom.
    pose proof (check_all_covers_services _ _ _ _ _ Hall name) as Hname.
    destruct (services !! name) as [jproxy|].
    + destruct Hname as (status & _ & _ & -> & _). split; eauto.
    + rewrite Hname. split; intros [? ?]; done.
Qed.

End ReportFacts.

(** * The templates *)

Module TemplateFacts.
Import Stdlib.Strings.Ascii.
Import Py Templates.

Lemma contains_app c s t :
  contains c (s +:+ t) = contains c s || contains c t.
Proof.
  induction s as [|d s IH]; simpl; [done|]. rewrite IH. by rewrite orb_assoc.
Qed.

(** Without the separator the string stays whole. *)
Lemma rsplit1_whole sep s : contains sep s = false → rsplit1 sep s = [s].
Proof.
  induction s as [|d s IH]; simpl; [done|].
  intros [Hd Hs]%orb_false_elim. by rewrite IH, Hd.
Qed.

(** The cut is at the last separator. *)
Lemma rsplit1_cut sep base ext :
  contains sep ext = false →
  rsplit1 sep (base +:+ String sep ext) = [base; ext].
Proof.
  intros Hext. induction base as [|d base IH]; simpl.
  - by rewrite rsplit1_whole, Ascii.eqb_refl.
  - by rewrite IH.
Qed.

Lemma rsplit1_found sep s :
  contains sep s = true →
  ∃ base ext,
    s = base +:+ String sep ext ∧ contains sep ext = false
    ∧ rsplit1 sep s = [base; ext].
Proof.
  induction s as [|d s IH]; simpl; [done|].
  destruct (contains sep s) eqn:Hs.
  - intros _. destruct IH as (base & ext & -> & Hext & Hcut); [done|].
    exists (String d base), ext. by rewrite Hcut.
  - rewrite orb_false_r. intros Hd. apply Ascii.eqb_eq in Hd as ->.
    exists EmptyString, s. by rewrite rsplit1_whole, Ascii.eqb_refl.
Qed.

(** X13. [_guess_autoescape] never raises, and it answers [True]
    exactly for the names that end in [.html], [.htm] or [.xml]: what
    follows the last dot decides, in the case it is written in, and no
    name, or a name without a dot, gives [False]. *)
Theorem guess_autoescape_by_extension template_name :
  ∃ b, _guess_autoescape template_name = inr b
       ∧ (b = true ↔
          ∃ base ext,
            template_name = Some (base +:+ "." +:+ ext)
            ∧ ext ∈ ["html"; "htm"; "xml"]).
Proof.
  destruct template_name as [name|]; simpl.
  2: { exists false. split; [done|]. split; [done|]. by intros (? & ? & ? & _). }
  destruct (contains "." name) eqn:Hdot; simpl.
  - destruct (rsplit1_found _ _ Hdot) as (base & ext & -> & Hext & ->).
    simpl. eexists. split; [reflexivity|]. rewrite bool_decide_eq_true.
    split.
    + intros Hin. by exists base, ext.
    + intros (base' & ext' & [= Heq] & Hin).
      assert (contains "." ext' = false) as Hext'.
      { revert Hin. rewrite !elem_of_cons, elem_of_nil.
        by intros [->|[->|[->|[]]]]. }
      assert (rsplit1 "." (base +:+ String "." ext) = [base'; ext']) as Hcut
        by (rewrite Heq; by apply rsplit1_cut).
      rewrite rsplit1_cut in Hcut by done. by injection Hcut as -> ->.
  - exists false. split; [done|]. split; [done|].
    intros (base & ext & [= ->] & _).
    rewrite contains_app in Hdot. simpl in Hdot.
    by rewrite orb_true_r in Hdot.
Qed.

End TemplateFacts.

(** * The sort of Python *)

Module SortFacts.
Import Py.

Section sort.
Context {A : Type} (le : A → A → bool).
Implicit Types (x y : A) (l : list A).

Lemma insert_sorted_perm x l : insert_sorted le x l ≡ₚ x :: l.
Proof.
  induction l as [|y l IH]; simpl; [done|].
  destruct (le x y); [done|]. by rewrite IH, Permutation_swap.
Qed.

Lemma sorted_perm l : sorted le l ≡ₚ l.
Proof.
  induction l as [|x l IH]; simpl; [done|].
  by rewrite insert_sorted_perm, IH.
Qed.

Lemma insert_sorted_sorted x l :
  (∀ a b, le a b = true ∨ le b a = true) →
  (∀ a b c, le a b = true → le b c = true → le a c = true) →
  StronglySorted (λ a b, le a b = true) l →
  StronglySorted (λ a b, le a b = true) (insert_sorted le x l).
Proof.
  intros Htotal Htrans. induction 1 as [|y l Hl IH Hall]; simpl.
  - repeat constructor.
  - destruct (le x y) eqn:Hxy.
    + constructor; [by constructor|]. constructor; [done|].
      eapply Forall_impl; [exact Hall|]. simpl. eauto.
    + constructor; [done|]. rewrite insert_sorted_perm.
      constructor; [|done]. destruct (Htotal x y); congruence.
Qed.

Lemma sorted_sorted l :
  (∀ a b, le a b = true ∨ le b a = true) →
  (∀ a b c, le a b = true → le b c = true → le a c = true) →
  StronglySorted (λ a b, le a b = true) (sorted le l).
Proof.
  intros Htotal Htrans. induction l as [|x l IH]; simpl; [constructor|].
  by apply insert_sorted_sorted.
Qed.

(** The sort is stable: among elements that may stand either way it
    keeps the order of the input. *)
Lemma insert_sorted_filter (P : A → Prop) `{∀ x, Decision (P x)} x l :
  (∀ a b, P a → P b → le a b = true) →
  filter P (insert_sorted le x l) = filter P (x :: l).
Proof.
  intros Hclass. induction l as [|y l IH]; simpl; [done|].
  destruct (le x y) eqn:Hxy; [done|].
  rewrite filter_cons, IH, !filter_cons.
  destruct (decide (P x)), (decide (P y)); try done.
  rewrite Hclass in Hxy by done. done.
Qed.

Lemma sorted_stable (P : A → Prop) `{∀ x, Decision (P x)} l :
  (∀ a b, P a → P b → le a b = true) →
  filter P (sorted le l) = filter P l.
Proof.
  intros Hclass. induction l as [|x l IH]; simpl; [done|].
  rewrite insert_sorted_filter, !filter_cons, IH by done. done.
Qed.

End sort.

Section sorted_lists.
Context {A : Type} (R : relation A).
Implicit Types (l : list A).

Lemma filter_StronglySorted (P : A → Prop) `{∀ x, Decision (P x)} l :
  StronglySorted R l → StronglySorted R (filter P l).
Proof.
  induction 1 as [|x l Hl IH Hall]; [constructor|].
  rewrite filter_cons. destruct (decide (P x)); [|done].
  constructor; [done|]. rewrite Forall_forall in *. intros y Hy.
  apply list_elem_of_filter in Hy as [_ Hy]. by apply Hall.
Qed.

(** A sorted list is its elements with [P], then the others, when [P]
    passes from an element to those that may stand before it. *)
Lemma sorted_partition (P : A → Prop) `{∀ x, Decision (P x)} l :
  (∀ x y, R x y → P y → P x) →
  StronglySorted R l →
  l = filter P l ++ filter (λ x, ¬ P x) l.
Proof.
  intros Hup. induction 1 as [|x l Hl IH Hall]; [done|].
  rewrite !filter_cons. destruct (decide (P x)) as [Hx|Hx].
  - rewrite decide_False by tauto. simpl. by rewrite <-IH.
  - rewrite decide_True by done.
    assert (filter P l = []) as Hnone.
    { clear IH. induction Hall as [|y l Hy _ IHl]; [done|].
      apply StronglySorted_cons in Hl as [_ Hl].
      rewrite filter_cons, decide_False by eauto. by apply IHl. }
    rewrite Hnone in *. simpl in *. by rewrite <-IH.
Qed.

(** In a sorted list an element that may not stand after another one
    stands before it. *)
Lemma sorted_before l x y :
  StronglySorted R l → x ∈ l → y ∈ l → R x x → ¬ R y x →
  ∃ l1 l2 l3, l = l1 ++ x :: l2 ++ y :: l3.
Proof.
  intros Hs Hx Hy Hrefl Hyx.
  apply list_elem_of_split in Hx as (l1 & l' & ->).
  apply elem_of_app in Hy as [Hy|Hy].
  - apply StronglySorted_app in Hs as (Hcross & _ & _).
    exfalso. apply Hyx, Hcross; [done|]. by left.
  - apply elem_of_cons in Hy as [->|Hy]; [done|].
    apply list_elem_of_split in Hy as (l2 & l3 & ->). by exists l1, l2, l3.
Qed.

End sorted_lists.

Lemma StronglySorted_weaken {A} (R1 R2 : relation A) (l : list A) :
  (∀ x y, R1 x y → R2 x y) → StronglySorted R1 l → StronglySorted R2 l.
Proof.
  intros Hsub. induction 1 as [|x l Hl IH Hall]; constructor; [done|].
  eapply Forall_impl; [exact Hall|]. exact (Hsub x).
Qed.

End SortFacts.

(** * The discovery of the plugins *)

Module PluginFacts.
Import Stdlib.Strings.Ascii.
Import Py Plugins SortFacts.

Lemma index_lookup x l i : index x l = Some i → l !! i = Some x.
Proof.
  revert i. induction l as [|y l IH]; intros i; simpl; [done|].
  destruct (String.eqb_spec y x) as [->|Hne].
  - by intros [= <-].
  - destruct (index x l) as [k|]; [|done]. intros [= <-]. by apply IH.
Qed.

Lemma index_None x l : index x l = None ↔ x ∉ l.
Proof.
  induction l as [|y l IH]; simpl.
  - split; [intros _; apply not_elem_of_nil|done].
  - rewrite not_elem_of_cons. destruct (String.eqb_spec y x) as [->|Hne].
    + split; [done|]. by intros [? _].
    + destruct (index x l); simpl.
      * split; [done|]. intros [_ Hx]. by apply IH in Hx.
      * split; [|done]. intros _. split; [done|]. by apply IH.
Qed.

Lemma index_NoDup x l i : NoDup l → l !! i = Some x → index x l = Some i.
Proof.
  intros Hnd. revert i. induction Hnd as [|y l Hy Hnd IH]; intros i; [done|].
  simpl. destruct (String.eqb_spec y x) as [->|Hne].
  - destruct i as [|i]; [done|]. simpl. intros Hi.
    exfalso. apply Hy. by eapply list_elem_of_lookup_2.
  - destruct i as [|i]; simpl; [congruence|]. intros Hi. by rewrite (IH i).
Qed.

Lemma replace_removes old new s :
  old ≠ new → contains old (replace old new s) = false.
Proof.
  intros Hne. induction s as [|d s IH]; simpl; [done|]. rewrite IH, orb_false_r.
  destruct (Ascii.eqb_spec d old) as [->|Hd]; by apply Ascii.eqb_neq.
Qed.

Section order.
Implicit Types (config : Config) (fs : FileSystem) (d : string).

Lemma priority_key_min ordered d : -1 ≤ priority_key ordered d.
Proof. unfold priority_key. destruct (index _ _); lia. Qed.

Lemma priority_key_listed config d :
  0 ≤ priority_key (reverse (priority_plugins config)) d
  ↔ basename d ∈ priority_plugins config.
Proof.
  unfold priority_key. rewrite <-(elem_of_reverse _ (priority_plugins config)).
  destruct (index _ _) as [i|] eqn:Hi.
  - split; [|lia]. intros _. apply index_lookup in Hi.
    by eapply list_elem_of_lookup_2.
  - apply index_None in Hi. split; [lia|done].
Qed.

Lemma ordering_sorted config fs :
  StronglySorted
    (λ a b, priority_key (reverse (priority_plugins config)) b
            ≤ priority_key (reverse (priority_plugins config)) a)
    (sorted_plugin_ordering config fs).
Proof.
  unfold sorted_plugin_ordering.
  eapply StronglySorted_weaken; [|apply sorted_sorted].
  - intros a b. simpl. apply Z.leb_le.
  - intros a b. simpl. rewrite !Z.leb_le. lia.
  - intros a b c. simpl. rewrite !Z.leb_le. lia.
Qed.

Lemma plugin_dirs_sorted config fs :
  StronglySorted (λ a b, String.leb (basename a) (basename b) = true)
    (plugin_dirs config fs).
Proof.
  unfold plugin_dirs. apply sorted_sorted.
  - intros a b. apply String.leb_total.
  - intros a b c. apply ReportFacts.leb_trans.
Qed.

(** X14. The plugins that are loaded are the directories [glob] finds
    whose name does not begin with an underscore: each of them once for
    each time [glob] lists it, and nothing else. *)
Theorem discovery_loads_the_eligible config fs :
  sorted_plugin_ordering config fs
  ≡ₚ filter (λ d, isdir fs d = true ∧ startswith "_" (basename d) = false)
       (glob fs (join (plugins_dir config) "*")).
Proof.
  unfold sorted_plugin_ordering, plugin_dirs. by rewrite !sorted_perm.
Qed.

(** X15. The plugins named in [priority_plugins] are loaded before all
    the others, and the others are loaded in ascending order of their
    names. *)
Theorem priority_plugins_come_first config fs :
  ∃ first rest,
    sorted_plugin_ordering config fs = first ++ rest
    ∧ Forall (λ d, basename d ∈ priority_plugins config) first
    ∧ Forall (λ d, basename d ∉ priority_plugins config) rest
    ∧ StronglySorted (λ a b, String.leb (basename a) (basename b) = true)
        rest.
Proof.
  set (key := priority_key (reverse (priority_plugins config))).
  exists (filter (λ d, 0 ≤ key d) (sorted_plugin_ordering config fs)),
    (filter (λ d, ¬ 0 ≤ key d) (sorted_plugin_ordering config fs)).
  split; [|split; [|split]].
  - apply (sorted_partition (λ a b, key b ≤ key a)).
    + intros x y. lia.
    + apply ordering_sorted.
  - apply Forall_forall. intros d [Hd _]%list_elem_of_filter.
    by apply priority_key_listed.
  - apply Forall_forall. intros d [Hd _]%list_elem_of_filter.
    by rewrite <-priority_key_listed.
  - unfold sorted_plugin_ordering. fold key. rewrite sorted_stable.
    + apply filter_StronglySorted, plugin_dirs_sorted.
    + intros a b Ha Hb. apply Z.leb_le.
      pose proof (priority_key_min (reverse (priority_plugins config)) a).
      pose proof (priority_key_min (reverse (priority_plugins config)) b).
      unfold key in *. lia.
Qed.

(** X16. Two plugins named in a [priority_plugins] without repetition
    are loaded in the order in which it names them. *)
Theorem priority_plugins_in_config_order config fs (i j : nat) da db :
  NoDup (priority_plugins config) →
  (i < j)%nat →
  priority_plugins config !! i = Some (basename da) →
  priority_plugins config !! j = Some (basename db) →
  da ∈ sorted_plugin_ordering config fs →
  db ∈ sorted_plugin_ordering config fs →
  ∃ l1 l2 l3, sorted_plugin_ordering config fs = l1 ++ da :: l2 ++ db :: l3.
Proof.
  intros Hnd Hij Hi Hj Hda Hdb.
  set (n := length (priority_plugins config)).
  assert (j < n)%nat as Hjn by by eapply lookup_lt_Some.
  assert (∀ k d, (k < n)%nat →
            priority_plugins config !! k = Some (basename d) →
            priority_key (reverse (priority_plugins config)) d
            = Z.of_nat (n - S k)) as Hkey.
  { intros k d Hk Hlook. unfold priority_key.
    rewrite (index_NoDup _ _ (n - S k)); [done| |].
    - by rewrite reverse_Permutation.
    - rewrite reverse_lookup by (fold n; lia). fold n.
      by replace (n - S (n - S k))%nat with k by lia. }
  eapply sorted_before; [apply ordering_sorted|done|done|simpl; lia|].
  simpl. rewrite (Hkey i da), (Hkey j db) by (done || lia). lia.
Qed.

End order.

Section loading.
Context {Mod : Type}.
Implicit Types (st : Interp Mod).
Implicit Types (importer : list string → string → exn + Mod).

(** The statements of the loop for one plugin. *)
Lemma load_succeeds importer d st m :
  importer (sys_path st ++ [d]) (plugin_name d) = inr m →
  (sys_path_append d;;ₘ
   print ("LOADING PLUGIN: " +:+ plugin_name d);;ₘ
   m ←ₘ import_module importer (plugin_name d);;
   plugins_set (plugin_name d) m) st
  = Returns ()
      {| sys_path := sys_path st ++ [d];
         plugins := <[plugin_name d := m]> (plugins st);
         printed := printed st ++ ["LOADING PLUGIN: " +:+ plugin_name d] |}.
Proof.
  intros Himp. unfold bind, sys_path_append, print, import_module, plugins_set.
  simpl. by rewrite Himp.
Qed.

Lemma loop_succeeds importer ds st :
  (∀ path d, d ∈ ds → ∃ m, importer path (plugin_name d) = inr m) →
  ∃ st',
    for_each ds (λ plugin_path,
      sys_path_append plugin_path;;ₘ
      print ("LOADING PLUGIN: " +:+ plugin_name plugin_path);;ₘ
      m ←ₘ import_module importer (plugin_name plugin_path);;
      plugins_set (plugin_name plugin_path) m) st = Returns () st'
    ∧ sys_path st' = sys_path st ++ ds
    ∧ dom (plugins st')
      = dom (plugins st) ∪ list_to_set (plugin_name <$> ds).
Proof.
  revert st. induction ds as [|d ds IH]; intros st Himp.
  - exists st. simpl. rewrite app_nil_r. split; [done|]. split; [done|].
    by rewrite (right_id_L ∅ (∪)).
  - destruct (Himp (sys_path st ++ [d]) d) as [m Hm]; [by left|].
    simpl. unfold bind at 1. rewrite (load_succeeds _ _ _ _ Hm).
    edestruct IH as (st' & Hrun & Hpath & Hdom);
      [intros path d' Hd'; apply Himp; by right|].
    exists st'. split; [exact Hrun|]. simpl in *. split.
    + by rewrite Hpath, <-app_assoc.
    + rewrite Hdom, dom_insert_L.
      by rewrite (comm_L (∪) {[plugin_name d]}), <-(assoc_L (∪)).
Qed.

(** X17. When every import succeeds, [_discover_plugins] returns; it
    has put the directories of the plugins at the end of [sys.path] in
    the order of loading, and [plugins] has gained the names of the
    plugins, in which every [-] of the directory name is a [_]. *)
Theorem discovery_files_the_plugins str_list config fs importer st :
  (∀ path d, d ∈ sorted_plugin_ordering config fs →
             ∃ m, importer path (plugin_name d) = inr m) →
  ∃ st',
    _discover_plugins str_list config fs importer st = Returns () st'
    ∧ sys_path st' = sys_path st ++ sorted_plugin_ordering config fs
    ∧ dom (plugins st')
      = dom (plugins st)
        ∪ list_to_set (plugin_name <$> sorted_plugin_ordering config fs)
    ∧ ∀ d, contains "-" (plugin_name d) = false.
Proof.
  intros Himp. unfold _discover_plugins, bind at 1 2 3, print at 1 2 3.
  edestruct (loop_succeeds importer (sorted_plugin_ordering config fs))
    as (st' & Hrun & Hpath & Hdom); [exact Himp|].
  exists st'. split; [exact Hrun|]. split; [exact Hpath|]. split; [exact Hdom|].
  intros d. by apply replace_removes.
Qed.

(** X18. An import that fails ends the discovery with its exception.
    The directory of the failing plugin is by then on [sys.path], after
    those of the plugins loaded before it; those plugins are filed in
    [plugins], the failing one and the ones after it are not. *)
Theorem failed_import_stops_discovery
    str_list config fs importer st pre d post e :
  sorted_plugin_ordering config fs = pre ++ d :: post →
  (∀ path d', d' ∈ pre → ∃ m, importer path (plugin_name d') = inr m) →
  importer (sys_path st ++ pre ++ [d]) (plugin_name d) = inl e →
  ∃ st',
    _discover_plugins str_list config fs importer st = Raises e st'
    ∧ sys_path st' = sys_path st ++ pre ++ [d]
    ∧ dom (plugins st')
      = dom (plugins st) ∪ list_to_set (plugin_name <$> pre).
Proof.
  intros Hsplit Himp Hfail.
  unfold _discover_plugins, bind at 1 2 3, print at 1 2 3. rewrite Hsplit.
  rewrite LifecycleFacts.for_each_app.
  edestruct (loop_succeeds importer pre) as (st1 & Hrun & Hpath & Hdom);
    [exact Himp|].
  unfold bind at 1. rewrite Hrun. simpl in Hpath, Hdom.
  assert (importer (sys_path st1 ++ [d]) (plugin_name d) = inl e) as Hf
    by (rewrite Hpath, <-app_assoc; exact Hfail).
  simpl. unfold bind, sys_path_append, print, import_module. simpl.
  rewrite Hf. eexists. split; [reflexivity|]. simpl.
  split; [by rewrite Hpath, <-app_assoc|exact Hdom].
Qed.

End loading.

End PluginFacts.

(** * The further properties on concrete inputs *)

Module MoreExamples.
Import Stdlib.Strings.Ascii.
Import Lifecycle Checker Report Py Plugins.
Import Examples ReportExamples PluginExamples.
Import RegistryFacts ProbeFacts ReportFacts PluginFacts.

Lemma shutdown_as_startup_without_failure_witness :
  _run_startup startup_with_quiet p0 = Returns () after_startup
  ∧ _run_shutdown startup_with_quiet p0 = Returns () after_startup.
Proof.
  assert (_run_startup startup_with_quiet p0 = Returns () after_startup)
    as Hrun by (vm_compute; reflexivity).
  split; [exact Hrun|].
  exact (shutdown_as_startup_without_failure _ _ _ Hrun).
Defined.

Lemma mainloop_returns_for_a_reason_witness :
  ∃ r,
    mainloop startup_with_quiet shutdown_with_quiet
      [TimedOut; TimedOut; WaitRaised KeyboardInterrupt] p0 = Some r
    ∧ ((∃ e p1, _run_startup startup_with_quiet p0 = Raises e p1)
       ∨ (∃ p1, _run_startup startup_with_quiet p0 = Returns () p1
                ∧ stopped (world p1) = true)
       ∨ StopRequested ∈ [TimedOut; TimedOut; WaitRaised KeyboardInterrupt]
       ∨ ∃ e, WaitRaised e
                ∈ [TimedOut; TimedOut; WaitRaised KeyboardInterrupt]).
Proof.
  eexists. split; [exact LifecycleFacts.mainloop_interrupted|].
  exact (mainloop_returns_for_a_reason _ _ _ _ _
           LifecycleFacts.mainloop_interrupted).
Defined.

Lemma report_shape_witness :
  ∃ status calls',
    _check (net_no_dns https_url) "https://example.com/" ca_only []
    = Returns status calls'
    ∧ head status = Some (Checking "https://example.com/")
    ∧ (∃ l, last status = Some l
            ∧ (is_failure l = true ∨ l = EverythingWorks))
    ∧ Forall (λ l, is_failure l = false ∧ l ≠ EverythingWorks)
        (removelast status).
Proof.
  assert (∃ status calls',
            _check (net_no_dns https_url) "https://example.com/" ca_only []
            = Returns status calls') as (status & calls' & Hrun)
    by (vm_compute; eauto).
  exists status, calls'. split; [exact Hrun|].
  exact (report_shape _ _ _ _ _ _ Hrun).
Defined.


Lemma only_the_port_escapes_witness :
  _check (net_up bad_port_url) "http://example.com:http/" no_credentials []
  = Raises bad_port []
  ∧ is_Exception bad_port = true
  ∧ ∃ parsed,
      urlparse (net_up bad_port_url) "http://example.com:http/" = inr parsed
      ∧ port parsed = inl bad_port ∧ [] = @nil net_call.
Proof.
  split; [reflexivity|]. split; [reflexivity|].
  exact (only_the_port_escapes (net_up bad_port_url)
           "http://example.com:http/" no_credentials [] bad_port []
           eq_refl eq_refl).
Defined.

Lemma net_static_memoryless : memoryless net_static.
Proof. by repeat split. Qed.

Lemma report_is_independent_witness :
  memoryless net_static
  ∧ outcome (_check net_static "https://db.invalid/" ca_only
               [Close 7%nat; Gethostbyname None])
    = outcome (_check net_static "https://db.invalid/" ca_only []).
Proof.
  split; [exact net_static_memoryless|].
  exact (report_is_independent net_static "https://db.invalid/" ca_only
           [Close 7%nat; Gethostbyname None] net_static_memoryless).
Defined.

Lemma two_services_checked :
  ∃ checks calls', check_all net_static two_services [] = Returns checks calls'.
Proof. vm_compute. eauto. Qed.

Lemma check_all_covers_services_witness :
  ∃ checks calls',
    check_all net_static two_services [] = Returns checks calls'
    ∧ ∀ name,
        match two_services !! name with
        | None => checks !! name = None
        | Some jproxy =>
            ∃ status c c',
              checks !! name = Some status
              ∧ _check net_static (service_url jproxy) (service_params jproxy) c
                = Returns status c'
              ∧ head status = Some (Checking (service_url jproxy))
        end.
Proof.
  destruct two_services_checked as (checks & calls' & Hrun).
  exists checks, calls'. split; [exact Hrun|].
  exact (check_all_covers_services _ _ _ _ _ Hrun).
Defined.

Lemma check_all_is_pointwise_witness :
  memoryless net_static
  ∧ ∃ checks calls',
      check_all net_static two_services [] = Returns checks calls'
      ∧ checks = report_of net_static <$> two_services.
Proof.
  split; [exact net_static_memoryless|].
  destruct two_services_checked as (checks & calls' & Hrun).
  exists checks, calls'. split; [exact Hrun|].
  exact (check_all_is_pointwise _ _ _ _ _ net_static_memoryless Hrun).
Defined.

Lemma two_services_printed :
  ∃ printed calls',
    check_connections (λ _, "{}") net_static two_services []
    = Returns printed calls'.
Proof. vm_compute. eauto. Qed.

Lemma check_connections_prints_sorted_witness :
  ∃ printed calls',
    check_connections (λ _, "{}") net_static two_services []
    = Returns printed calls'
    ∧ ∃ checks blocks,
        check_all net_static two_services [] = Returns checks calls'
        ∧ printed
          = blocks ≫= (λ '(service, results),
                         print_service (λ _, "{}") service results)
        ∧ StronglySorted (λ a b, String.ltb a b = true) blocks.*1
        ∧ (∀ service results,
             (service, results) ∈ blocks ↔ checks !! service = Some results)
        ∧ length printed = (3 * size two_services)%nat.
Proof.
  destruct two_services_printed as (printed & calls' & Hrun).
  exists printed, calls'. split; [exact Hrun|].
  exact (check_connections_prints_sorted _ _ _ _ _ _ Hrun).
Defined.

(** What [check_connections] prints for the two services: [api] before
    [db], each with its underline and its report. *)
Example two_services_report :
  outcome (check_connections (λ _, "{}") net_static two_services [])
  = inr ["api"; "---";
         "checking https://api.example.com/" +:+ nl
         +:+ "using hostname api.example.com and port 443" +:+ nl
         +:+ "successfully resolved host api.example.com to 10.0.0.1" +:+ nl
         +:+ "successfully opened socket connection to api.example.com:443"
         +:+ nl +:+ "everything seems to work" +:+ nl;
         "db"; "--";
         "checking https://db.invalid/" +:+ nl
         +:+ "using hostname db.invalid and port 443" +:+ nl
         +:+ "failed to resolve host with DNS: "
         +:+ "[Errno -2] Name or service not known" +:+ nl].
Proof. vm_compute. reflexivity. Qed.

Lemma example_ordering_computed :
  sorted_plugin_ordering example_config example_fs = example_ordering.
Proof. vm_compute. reflexivity. Qed.

Lemma example_priority_NoDup : NoDup (priority_plugins example_config).
Proof.
  simpl. repeat constructor; rewrite ?elem_of_cons, ?elem_of_nil;
    intros ?; destruct_or?; done.
Qed.

Lemma priority_plugins_in_config_order_witness :
  NoDup (priority_plugins example_config)
  ∧ (0 < 1)%nat
  ∧ priority_plugins example_config !! 0%nat = Some (basename "/plugins/uber")
  ∧ priority_plugins example_config !! 1%nat = Some (basename "/plugins/base")
  ∧ "/plugins/uber" ∈ sorted_plugin_ordering example_config example_fs
  ∧ "/plugins/base" ∈ sorted_plugin_ordering example_config example_fs
  ∧ ∃ l1 l2 l3,
      sorted_plugin_ordering example_config example_fs
      = l1 ++ "/plugins/uber" :: l2 ++ "/plugins/base" :: l3.
Proof.
  assert ("/plugins/uber" ∈ sorted_plugin_ordering example_config example_fs)
    as Hu by (rewrite example_ordering_computed; by left).
  assert ("/plugins/base" ∈ sorted_plugin_ordering example_config example_fs)
    as Hb by (rewrite example_ordering_computed; right; by left).
  split; [exact example_priority_NoDup|]. split; [lia|].
  split; [reflexivity|]. split; [reflexivity|].
  split; [exact Hu|]. split; [exact Hb|].
  exact (priority_plugins_in_config_order example_config example_fs
           0%nat 1%nat "/plugins/uber" "/plugins/base"
           example_priority_NoDup (le_n 1) eq_refl eq_refl Hu Hb).
Defined.

Lemma importer_ok_finds (path : list string) (d : string) :
  d ∈ sorted_plugin_ordering example_config example_fs →
  ∃ m, importer_ok path (plugin_name d) = inr m.
Proof. intros _. by eexists. Qed.

Lemma discovery_files_the_plugins_witness :
  (∀ path d, d ∈ sorted_plugin_ordering example_config example_fs →
             ∃ m, importer_ok path (plugin_name d) = inr m)
  ∧ ∃ st',
      _discover_plugins (λ _, "[...]") example_config example_fs
        importer_ok st0 = Returns () st'
      ∧ sys_path st'
        = sys_path st0 ++ sorted_plugin_ordering example_config example_fs
      ∧ dom (plugins st')
        = dom (plugins st0)
          ∪ list_to_set
              (plugin_name
                 <$> sorted_plugin_ordering example_config example_fs)
      ∧ ∀ d, contains "-" (plugin_name d) = false.
Proof.
  split; [exact importer_ok_finds|].
  exact (discovery_files_the_plugins (λ _, "[...]") example_config example_fs
           importer_ok st0 importer_ok_finds).
Defined.

Lemma importer_broken_finds_uber (path : list string) (d : string) :
  d ∈ ["/plugins/uber"] → ∃ m, importer_broken path (plugin_name d) = inr m.
Proof. rewrite list_elem_of_singleton. intros ->. by eexists. Qed.

Lemma failed_import_stops_discovery_witness :
  sorted_plugin_ordering example_config example_fs
  = ["/plugins/uber"] ++ "/plugins/base"
      :: ["/plugins/alpha"; "/plugins/zeta-tools"]
  ∧ (∀ path d', d' ∈ ["/plugins/uber"] →
                ∃ m, importer_broken path (plugin_name d') = inr m)
  ∧ importer_broken (sys_path st0 ++ ["/plugins/uber"] ++ ["/plugins/base"])
      (plugin_name "/plugins/base") = inl no_module
  ∧ ∃ st',
      _discover_plugins (λ _, "[...]") example_config example_fs
        importer_broken st0 = Raises no_module st'
      ∧ sys_path st' = sys_path st0 ++ ["/plugins/uber"] ++ ["/plugins/base"]
      ∧ dom (plugins st')
        = dom (plugins st0) ∪ list_to_set (plugin_name <$> ["/plugins/uber"]).
Proof.
  split; [exact example_ordering_computed|].
  split; [exact importer_broken_finds_uber|]. split; [reflexivity|].
  exact (failed_import_stops_discovery (λ _, "[...]") example_config example_fs
           importer_broken st0 ["/plugins/uber"] "/plugins/base"
           ["/plugins/alpha"; "/plugins/zeta-tools"] no_module
           example_ordering_computed importer_broken_finds_uber eq_refl).
Defined.

(** The discovery of the example, run: the plugin [zeta-tools] is filed
    as [zeta_tools]. *)
Example example_discovery :
  match _discover_plugins (λ _, "[...]") example_config example_fs
          importer_ok st0 with
  | Returns _ st' =>
      sys_path st' = "/usr/lib/python2.7" :: example_ordering
      ∧ map_to_list (plugins st')
        ≡ₚ [("uber", "uber"); ("base", "base"); ("alpha", "alpha");
            ("zeta_tools", "zeta_tools")]
  | Raises _ _ => False
  end.
Proof.
  vm_compute. split; [reflexivity|].
  apply (bool_decide_unpack _). vm_compute. exact I.
Qed.

End MoreExamples.
